(** * FlavourClusterWide: a shallow embedding of the scheduler plugin

    Source: [pkg/flavourclusterwide/flavourclusterwide.go].

    The plugin keeps a cache [map[string]map[string]int] (node name to
    flavour to pod count) and a timestamp of the last rebuild.  [Score]
    refreshes the cache when it is older than one minute and then compares
    the candidate node's count with the smallest count recorded in the
    cluster; [PostBind] increments one cell of the cache.

    The embedding is sequential: the mutex of the Go struct serialises the
    three operations, so each of them is a function from the state before
    to the state after.  The Kubernetes API, the clock and the order in
    which Go ranges over a map are inputs of a call, gathered in [World];
    the API requests a call issues are returned as a list of [Event]s.
    [log.Printf] calls are not modelled. *)

From Stdlib Require Import ZArith Lia.
From stdpp Require Import base option gmap strings list fin_maps.

Local Open Scope Z_scope.

(** ** Go's [int] on a 64-bit platform *)

Module GoInt.

Definition intMin : Z := - 2 ^ 63.
Definition intMax : Z := 2 ^ 63 - 1.

(** Two's-complement wrap-around of a mathematical integer. *)
Definition wrap (z : Z) : Z := (z + 2 ^ 63) mod 2 ^ 64 - 2 ^ 63.

(** The statement [x++]. *)
Definition incr (x : Z) : Z := wrap (x + 1).

End GoInt.

(** ** The part of Go's [time] package the plugin uses

    An instant is a number of nanoseconds since the Unix epoch; a
    [Duration] is an [int64] number of nanoseconds and [Time.Sub]
    saturates at its bounds. *)

Module GoTime.

Definition Time := Z.
Definition Duration := Z.

Definition Nanosecond : Duration := 1.
Definition Second : Duration := 1000000000 * Nanosecond.
Definition Minute : Duration := 60 * Second.

Definition maxDuration : Duration := 2 ^ 63 - 1.
Definition minDuration : Duration := - 2 ^ 63.

(** [time.Time{}]: January 1, year 1, 00:00:00 UTC. *)
Definition zeroTime : Time := - 62135596800 * Second.

(** [t.Sub(u)]. *)
Definition Sub (t u : Time) : Duration :=
  let d := t - u in
  if d >? maxDuration then maxDuration
  else if d <? minDuration then minDuration
  else d.

(** [time.Since(u)] when the clock reads [now]. *)
Definition Since (now u : Time) : Duration := Sub now u.

End GoTime.

(** ** Kubernetes objects, reduced to the fields the plugin reads *)

Record Pod := mkPod {
  podName : string;          (* pod.Name *)
  podNodeName : string;      (* pod.Spec.NodeName *)
  podLabels : gmap string string  (* pod.Labels *)
}.

Record Node := mkNode {
  nodeName : string          (* node.Name *)
}.

(** [m[k]] on a [map[string]string]: the zero value when [k] is absent. *)
Definition labelOf (labels : gmap string string) (key : string) : string :=
  default ""%string (labels !! key).

(** [framework.Code] and [framework.Status]. *)
Inductive Code := Success | Error | Unschedulable.

Record Status := NewStatus {
  statusCode : Code;
  statusMessage : string
}.

#[global] Instance Code_eq_dec : EqDecision Code.
Proof. solve_decision. Defined.

#[global] Instance Status_eq_dec : EqDecision Status.
Proof. solve_decision. Defined.

(** ** The plugin state

    The cache is a Go map of maps. Reading a missing key of either level
    yields the zero value ([nil], then [0]); the code allocates a row with
    [make] before it writes into it, so no row of the cache is ever a
    [nil] map and no write can panic. *)

Abbreviation Row := (gmap string Z).
Abbreviation Cache := (gmap string (gmap string Z)).

Record FlavourClusterWide := mkPlugin {
  cache : Cache;
  lastUpdated : GoTime.Time;
  labelName : string
}.

(** [pod.Labels[f.labelName]]. *)
Definition podFlavour (f : FlavourClusterWide) (pod : Pod) : string :=
  labelOf (podLabels pod) (labelName f).

Definition Name : string := "FlavourClusterWide".
Definition defaultLabelName : string := "flavour".

(** The [runtime.Object] handed to [New]: nil, the v1 arguments (a
    [*string] field), the internal arguments (a [string] field), or an
    object of another type. *)
Inductive PluginArgs :=
| ArgsNil
| ArgsV1 (LabelName : option string)
| ArgsInternal (LabelName : string)
| ArgsOther.

Definition configuredLabel (obj : PluginArgs) : string :=
  match obj with
  | ArgsV1 (Some l) => if decide (l = ""%string) then defaultLabelName else l
  | ArgsInternal l => if decide (l = ""%string) then defaultLabelName else l
  | _ => defaultLabelName
  end.

(** [New]: [configOk] and [clientOk] tell whether [rest.InClusterConfig]
    and [kubernetes.NewForConfig] succeeded. *)
Definition New (configOk clientOk : bool) (obj : PluginArgs)
  : option FlavourClusterWide :=
  if negb configOk then None
  else if negb clientOk then None
  else Some {| cache := ∅;
               lastUpdated := GoTime.zeroTime;
               labelName := configuredLabel obj |}.

(** ** What one call observes of its environment *)

Inductive Event :=
| EvListNodes (labelSelector : string)
| EvListPods (labelSelector : string).

Record World := mkWorld {
  (** the clock when [time.Since(f.lastUpdated)] is evaluated *)
  wNow : GoTime.Time;
  (** result of [Nodes().List]; [None] is [err != nil] *)
  wNodes : option (list Node);
  (** result of [Pods("").List]; [None] is [err != nil] *)
  wPods : option (list Pod);
  (** the clock when [time.Now()] is evaluated after the rebuild *)
  wNowAfter : GoTime.Time;
  (** the order in which [range f.cache] visits the rows *)
  wRange : Cache → list (string * Row)
}.

(** Go visits every entry of the map exactly once, in an order of its
    own choosing. *)
Definition world_wf (w : World) : Prop :=
  ∀ c : Cache, wRange w c ≡ₚ map_to_list c.

Definition workerSelector : string := "node-role.kubernetes.io/worker".

(** ** [updateCacheIfNeeded] *)

(** First pass: the flavour values of the pods that are assigned to a
    node. [discoveredFlavours] only ever stores [true], so it is a set. *)
Definition discoverStep (label : string) (d : gset string) (pod : Pod)
  : gset string :=
  if decide (podNodeName pod = ""%string) then d
  else let flavour := labelOf (podLabels pod) label in
       if decide (flavour ≠ ""%string) then {[flavour]} ∪ d else d.

Definition discoverFlavours (label : string) (pods : list Pod) : gset string :=
  foldl (discoverStep label) ∅ pods.

(** One row per listed node, zero for every discovered flavour. *)
Definition initStep (d : gset string) (c : Cache) (node : Node) : Cache :=
  <[nodeName node := gset_to_gmap 0 d]> c.

Definition initCache (nodes : list Node) (d : gset string) : Cache :=
  foldl (initStep d) ∅ nodes.

(** [c[n][fl]] on the nested map: zero when either key is absent. *)
Definition getCount (c : Cache) (n fl : string) : Z :=
  default 0 (default ∅ (c !! n) !! fl).

(** Second pass, one pod. *)
Definition countPod (label : string) (c : Cache) (pod : Pod) : Cache :=
  if decide (podNodeName pod = ""%string) then c
  else
    let node := podNodeName pod in
    let flavour := labelOf (podLabels pod) label in
    if decide (flavour = ""%string) then c
    else
      let c1 := match c !! node with
                | Some _ => c
                | None => <[node := ∅]> c
                end in
      let row := default ∅ (c1 !! node) in
      let row1 := match row !! flavour with
                  | Some _ => row
                  | None => <[flavour := 0]> row
                  end in
      let row2 := <[flavour := GoInt.incr (default 0 (row1 !! flavour))]> row1 in
      <[node := row2]> c1.

Definition rebuild (label : string) (nodes : list Node) (pods : list Pod)
  : Cache :=
  foldl (countPod label) (initCache nodes (discoverFlavours label pods)) pods.

Definition updateCacheIfNeeded (f : FlavourClusterWide) (w : World)
  : FlavourClusterWide * list Event :=
  if GoTime.Since (wNow w) (lastUpdated f) <? 1 * GoTime.Minute then (f, [])
  else
    match wNodes w with
    | None => (f, [EvListNodes workerSelector])
    | Some nodes =>
        match wPods w with
        | None => (f, [EvListNodes workerSelector; EvListPods (labelName f)])
        | Some pods =>
            ({| cache := rebuild (labelName f) nodes pods;
                lastUpdated := wNowAfter w;
                labelName := labelName f |},
             [EvListNodes workerSelector; EvListPods (labelName f)])
        end
    end.

(** ** [PostBind] *)

(** The loop [for node := range f.cache] of [PostBind]: each iteration
    touches the row it visits and no other, so the order is immaterial. *)
Definition backfill (flavour : string) (c : Cache) : Cache :=
  (λ row : Row, match row !! flavour with
                | Some _ => row
                | None => <[flavour := 0]> row
                end) <$> c.

Definition PostBind (f : FlavourClusterWide) (pod : Pod) (nodeName : string)
  : FlavourClusterWide :=
  let flavour := labelOf (podLabels pod) (labelName f) in
  if decide (flavour = ""%string) then f
  else
    let c1 := match cache f !! nodeName with
              | Some _ => cache f
              | None => <[nodeName := ∅]> (cache f)
              end in
    let c2 := match default ∅ (c1 !! nodeName) !! flavour with
              | Some _ => c1
              | None =>
                  backfill flavour
                    (<[nodeName := <[flavour := 0]> (default ∅ (c1 !! nodeName))]> c1)
              end in
    let c3 := <[nodeName :=
                  <[flavour := GoInt.incr (getCount c2 nodeName flavour)]>
                    (default ∅ (c2 !! nodeName))]> c2 in
    {| cache := c3; lastUpdated := lastUpdated f; labelName := labelName f |}.

(** ** [Score] *)

(** The body of the loop that looks for the smallest count. *)
Definition minStep (flavour : string) (minPods : Z) (nodeCounts : Row) : Z :=
  match nodeCounts !! flavour with
  | Some count =>
      if (minPods =? -1) || (count <? minPods) then count else minPods
  | None => minPods
  end.

Definition minPodsLoop (flavour : string) (rows : list Row) : Z :=
  foldl (minStep flavour) (-1) rows.

(** The part of [Score] that runs under the read lock. *)
Definition scoreLocked (rows : list (string * Row)) (c : Cache)
    (flavour nodeName : string) : Z * Status :=
  let minPods := minPodsLoop flavour rows.*2 in
  let podCount := getCount c nodeName flavour in
  if podCount =? minPods then (100, NewStatus Success "")
  else (0, NewStatus Success "").

Definition notAppliedMessage (label : string) : string :=
  "Pod does not have the '" +:+ label +:+ "' label, scoring is not applied".

Definition Score (f : FlavourClusterWide) (w : World) (pod : Pod)
    (nodeName : string) : FlavourClusterWide * list Event * (Z * Status) :=
  let flavour := labelOf (podLabels pod) (labelName f) in
  if decide (flavour = ""%string) then
    (f, [], (0, NewStatus Success (notAppliedMessage (labelName f))))
  else
    let '(f', evs) := updateCacheIfNeeded f w in
    (f', evs, scoreLocked (wRange w (cache f')) (cache f') flavour nodeName).

(** ** States the plugin can be in *)

Inductive reachable : FlavourClusterWide → Prop :=
| reach_New configOk clientOk obj f :
    New configOk clientOk obj = Some f → reachable f
| reach_update f w :
    reachable f → world_wf w → reachable (updateCacheIfNeeded f w).1
| reach_PostBind f pod n :
    reachable f → reachable (PostBind f pod n)
| reach_Score f w pod n :
    reachable f → world_wf w → reachable (Score f w pod n).1.1.

(** ** Properties of a cache table *)

(** Every row has an entry for every flavour some row has an entry for. *)
Definition uniform (c : Cache) : Prop :=
  ∀ n row n' row' fl,
    c !! n = Some row → c !! n' = Some row' →
    is_Some (row' !! fl) → is_Some (row !! fl).

(** All recorded counts are natural numbers. *)
Definition counts_nonneg (c : Cache) : Prop :=
  map_Forall (λ _ (row : Row), map_Forall (λ _ x, 0 ≤ x) row) c.

#[global] Instance counts_nonneg_dec c : Decision (counts_nonneg c).
Proof. unfold counts_nonneg. apply _. Defined.

(** Smallest element of a list, if it has one. *)
Fixpoint minimumZ (l : list Z) : option Z :=
  match l with
  | [] => None
  | x :: l' => Some (match minimumZ l' with
                     | None => x
                     | Some m => Z.min x m
                     end)
  end.

(** The counts recorded for a flavour, one per row that has an entry. *)
Definition flavourCounts (flavour : string) (rows : list Row) : list Z :=
  omap (λ row : Row, row !! flavour) rows.

(** The smallest count recorded for a flavour in the table; [None] when
    no row has an entry for it. *)
Definition clusterMin (c : Cache) (flavour : string) : option Z :=
  minimumZ (flavourCounts flavour (map_to_list c).*2).

(** The smallest count when a row without an entry is read as zero;
    [None] when the table has no row. *)
Definition clusterMinAbsentZero (c : Cache) (flavour : string) : option Z :=
  minimumZ ((λ row : Row, default 0 (row !! flavour)) <$> (map_to_list c).*2).

(** What the loop of [Score] leaves in [minPods], started from any value
    a run over natural counts can hold. *)
Definition afterLoop (acc : Z) (m : option Z) : Z :=
  match m with
  | None => acc
  | Some m => if acc =? -1 then m else Z.min acc m
  end.

(** The flavours that occur in some row. *)
Definition flavoursOf (c : Cache) : gset string :=
  ⋃ (dom <$> (map_to_list c).*2).

(** Every row has exactly the flavours [D]. *)
Definition uniform_on (D : gset string) (c : Cache) : Prop :=
  map_Forall (λ _ (row : Row), dom row = D) c.

(** A pod the second pass of the rebuild counts. *)
Definition counted (label : string) (pod : Pod) : Prop :=
  podNodeName pod ≠ ""%string ∧ labelOf (podLabels pod) label ≠ ""%string.

(** Every counted pod runs on a node of the node listing. *)
Definition pods_on_listed (label : string) (nodes : list Node)
    (pods : list Pod) : Prop :=
  ∀ pod, pod ∈ pods → counted label pod →
         podNodeName pod ∈ nodeName <$> nodes.

(** States reached without ever creating a row on demand: rebuilds meet
    counted pods on listed nodes only, and [PostBind] goes to nodes that
    have a row. *)
Inductive reachable_known : FlavourClusterWide → Prop :=
| known_New configOk clientOk obj f :
    New configOk clientOk obj = Some f → reachable_known f
| known_update f w :
    reachable_known f →
    (∀ nodes pods, wNodes w = Some nodes → wPods w = Some pods →
                   pods_on_listed (labelName f) nodes pods) →
    reachable_known (updateCacheIfNeeded f w).1
| known_PostBind f pod n :
    reachable_known f → is_Some (cache f !! n) →
    reachable_known (PostBind f pod n)
| known_Score f w pod n :
    reachable_known f →
    (∀ nodes pods, wNodes w = Some nodes → wPods w = Some pods →
                   pods_on_listed (labelName f) nodes pods) →
    reachable_known (Score f w pod n).1.1.

(** The states the plugin can go through once it is in state [f0]. *)
Inductive reachable_from (f0 : FlavourClusterWide)
  : FlavourClusterWide → Prop :=
| from_here : reachable_from f0 f0
| from_update f w :
    reachable_from f0 f → reachable_from f0 (updateCacheIfNeeded f w).1
| from_PostBind f pod n :
    reachable_from f0 f → reachable_from f0 (PostBind f pod n)
| from_Score f w pod n :
    reachable_from f0 f → reachable_from f0 (Score f w pod n).1.1.

(** All recorded counts lie between 0 and [b]. *)
Definition counts_within (b : Z) (c : Cache) : Prop :=
  map_Forall (λ _ (row : Row), map_Forall (λ _ x, 0 ≤ x ≤ b) row) c.

(** ** The remaining methods of the plugin *)

(** [ScoreExtensions] hands the plugin itself back. *)
Definition ScoreExtensions (f : FlavourClusterWide) : FlavourClusterWide := f.

(** [NormalizeScore] returns a [nil] status and leaves the score list it
    is given as it is. *)
Definition NormalizeScore (f : FlavourClusterWide) (pod : Pod)
    (scores : list (string * Z)) : list (string * Z) * option Status :=
  (scores, None).

(** ** Notions used to describe the table *)

(** [c[n][fl]] read with the comma-ok form: [None] when the row or the
    entry is missing. *)
Definition cell (c : Cache) (n fl : string) : option Z :=
  c !! n ≫= (λ row : Row, row !! fl).

#[global] Instance counted_dec label pod : Decision (counted label pod).
Proof. unfold counted. apply _. Defined.

(** The pods of a listing the second pass counts in the cell [(n, fl)]. *)
Definition countedIn (label n fl : string) (pod : Pod) : Prop :=
  counted label pod ∧ podNodeName pod = n
  ∧ labelOf (podLabels pod) label = fl.

#[global] Instance countedIn_dec label n fl pod :
  Decision (countedIn label n fl pod).
Proof. unfold countedIn. apply _. Defined.

Definition podsCounted (label n fl : string) (pods : list Pod) : nat :=
  length (filter (countedIn label n fl) pods).

(** [k] calls of [PostBind] with the same pod and node. *)
Definition PostBindTimes (k : nat) (f : FlavourClusterWide) (pod : Pod)
    (n : string) : FlavourClusterWide :=
  Nat.iter k (λ g, PostBind g pod n) f.

(** ** Tables used in the examples *)

Definition row1 (fl : string) (x : Z) : Row := {[fl := x]}.

Definition tableA0 : Cache := {["A"%string := row1 "gold" 0]}.
Definition tableABC : Cache :=
  {["A"%string := row1 "gold" 2; "B"%string := row1 "gold" 5;
    "C"%string := row1 "gold" 2]}.

Definition labelled (name node flavour : string) : Pod :=
  mkPod name node {["flavour"%string := flavour]}.

Definition plugin0 (c : Cache) : FlavourClusterWide :=
  mkPlugin c GoTime.zeroTime defaultLabelName.

(** ** Worlds and pods used in the examples *)

(** A world whose API answers with the given nodes and pods. *)
Definition inventoryWorld (now : GoTime.Time) (nodes : list Node)
    (pods : list Pod) : World :=
  mkWorld now (Some nodes) (Some pods) now map_to_list.

(** A world whose API fails on the first request. *)
Definition outageWorld (now : GoTime.Time) : World :=
  mkWorld now None None now map_to_list.

Definition t0 : GoTime.Time := 1700000000 * GoTime.Second.
Definition seconds (n : Z) : GoTime.Duration := n * GoTime.Second.

Definition freshPlugin : FlavourClusterWide := plugin0 ∅.

Definition podGold : Pod := labelled "web-1" "" "gold".
Definition podSilver : Pod := labelled "web-2" "" "silver".
Definition podPlain : Pod := mkPod "web-3" "" ∅.

Definition tableGoldSilver : Cache :=
  {["A"%string := row1 "gold" 2; "B"%string := row1 "silver" 1]}.

Definition tableA1 : Cache := {["A"%string := row1 "gold" 1]}.
Definition ttlPlugin : FlavourClusterWide := mkPlugin tableA1 t0 "flavour".

Definition twoNodes : list Node := [mkNode "A"; mkNode "B"].
Definition twoPods : list Pod :=
  [labelled "db-1" "A" "gold"; labelled "db-2" "B" "gold"].

Definition wOneNode : World :=
  inventoryWorld t0 [mkNode "A"] [labelled "db-1" "A" "gold"].

(** A labelled pod runs on node M, which the node listing does not
    return. *)
Definition wUnlistedNode : World :=
  inventoryWorld t0 [mkNode "A"]
    [labelled "db-1" "A" "gold"; labelled "db-2" "M" "silver"].

Definition afterUnlistedRebuild : FlavourClusterWide :=
  (updateCacheIfNeeded freshPlugin wUnlistedNode).1.

Definition afterNewNodeBind : FlavourClusterWide :=
  PostBind (updateCacheIfNeeded freshPlugin wOneNode).1 podSilver "B".

Definition rowGoldSilver (g s : Z) : Row :=
  {["gold"%string := g; "silver"%string := s]}.

(** * Auxiliary facts *)

(** Reduce [default d o] once [o] is a constructor. *)
Ltac red_default :=
  repeat match goal with
         | |- context [default ?d (Some ?x)] =>
             change (default d (Some x)) with x
         | |- context [default ?d None] =>
             change (default d None) with d
         end.

Lemma GoInt_wrap_small z :
  GoInt.intMin ≤ z ≤ GoInt.intMax → GoInt.wrap z = z.
Proof.
  unfold GoInt.intMin, GoInt.intMax, GoInt.wrap. intros Hz.
  rewrite Z.mod_small; lia.
Qed.

Lemma GoInt_incr_small x : 0 ≤ x < GoInt.intMax → GoInt.incr x = x + 1.
Proof.
  unfold GoInt.incr. intros Hx. apply GoInt_wrap_small.
  unfold GoInt.intMin, GoInt.intMax in *. lia.
Qed.

Lemma counts_nonneg_lookup c n row fl x :
  counts_nonneg c → c !! n = Some row → row !! fl = Some x → 0 ≤ x.
Proof. intros Hc Hn Hx. exact (Hc n row Hn fl x Hx). Qed.


Section Minimum.

Lemma minimumZ_None (l : list Z) : minimumZ l = None ↔ l = [].
Proof. destruct l; simpl; split; congruence. Qed.

Lemma minimumZ_Some (l : list Z) (m : Z) :
  minimumZ l = Some m ↔ m ∈ l ∧ ∀ x, x ∈ l → m ≤ x.
Proof.
  revert m. induction l as [|y l IH]; intros m; simpl.
  - split; [congruence | intros [Hm _]; inversion Hm].
  - destruct (minimumZ l) as [k|] eqn:Hk.
    + destruct (proj1 (IH k) eq_refl) as [Hkl Hkmin].
      split.
      * intros [= <-]. split.
        -- destruct (Z.min_spec y k) as [[_ ->]|[_ ->]];
             [apply list_elem_of_here | by apply list_elem_of_further].
        -- intros x [->|Hx]%elem_of_cons; [lia|].
           specialize (Hkmin x Hx). lia.
      * intros [Hm Hmin]. f_equal.
        assert (m ≤ y) by (apply Hmin, list_elem_of_here).
        assert (m ≤ k) by (by apply Hmin, list_elem_of_further).
        apply elem_of_cons in Hm as [->|Hm]; [lia|].
        specialize (Hkmin m Hm). lia.
    + apply minimumZ_None in Hk as ->.
      split.
      * intros [= <-]. split; [apply list_elem_of_here|].
        intros x [->|Hx]%elem_of_cons; [lia | inversion Hx].
      * intros [[->|Hm]%elem_of_cons _]; [done | inversion Hm].
Qed.

Lemma minimumZ_perm (l l' : list Z) : l ≡ₚ l' → minimumZ l = minimumZ l'.
Proof.
  intros Hp. destruct (minimumZ l) as [m|] eqn:Hm.
  - symmetry. apply minimumZ_Some. apply minimumZ_Some in Hm as [Hin Hmin].
    split; [by rewrite <- Hp|]. intros x Hx. apply Hmin. by rewrite Hp.
  - apply minimumZ_None in Hm. subst l.
    apply Permutation_nil_l in Hp. by subst l'.
Qed.

End Minimum.

Section MinLoop.

Variable flavour : string.


Lemma foldl_minStep (rows : list Row) (acc : Z) :
  acc = -1 ∨ 0 ≤ acc →
  Forall (λ x, 0 ≤ x) (flavourCounts flavour rows) →
  foldl (minStep flavour) acc rows
  = afterLoop acc (minimumZ (flavourCounts flavour rows)).
Proof.
  revert acc. induction rows as [|row rows IH]; intros acc Hacc Hnn.
  - done.
  - simpl. unfold flavourCounts in *. simpl in Hnn. unfold minStep at 2.
    destruct (row !! flavour) as [count|] eqn:Hrow; simpl in *.
    + apply Forall_cons in Hnn as [Hcount Hnn].
      rewrite IH; [|clear IH|done].
      * destruct (minimumZ (omap _ rows)) as [m|] eqn:Hm; simpl.
        -- assert (0 ≤ m).
           { apply minimumZ_Some in Hm as [Hin _].
             by eapply Forall_forall in Hnn. }
           repeat case_match; lia.
        -- repeat case_match; lia.
      * repeat case_match; lia.
    + by apply IH.
Qed.

Lemma minPodsLoop_natural (rows : list Row) :
  Forall (λ x, 0 ≤ x) (flavourCounts flavour rows) →
  minPodsLoop flavour rows
  = default (-1) (minimumZ (flavourCounts flavour rows)).
Proof.
  intros Hnn. unfold minPodsLoop. rewrite foldl_minStep; [|by left|done].
  by destruct (minimumZ _).
Qed.

(** Without any entry for the flavour the sentinel survives, whatever
    the rows hold otherwise. *)
Lemma minPodsLoop_no_entry (rows : list Row) :
  Forall (λ row : Row, row !! flavour = None) rows →
  minPodsLoop flavour rows = -1.
Proof.
  unfold minPodsLoop. generalize (-1) as acc.
  induction rows as [|row rows IH]; intros acc Hrows; [done|].
  apply Forall_cons in Hrows as [Hrow Hrows]. simpl.
  unfold minStep at 2. rewrite Hrow. by apply IH.
Qed.

End MinLoop.

Section Tables.

Implicit Types (c : Cache) (w : World).

Lemma range_rows w c row :
  world_wf w → row ∈ (wRange w c).*2 ↔ ∃ n, c !! n = Some row.
Proof.
  intros Hw. rewrite (Hw c). rewrite list_elem_of_fmap. split.
  - intros [[n r] [-> Hin]]. exists n. by apply elem_of_map_to_list.
  - intros [n Hn]. exists (n, row). split; [done|].
    by apply elem_of_map_to_list.
Qed.

Lemma flavourCounts_rows w c fl x :
  world_wf w →
  x ∈ flavourCounts fl (wRange w c).*2
  ↔ ∃ n row, c !! n = Some row ∧ row !! fl = Some x.
Proof.
  intros Hw. unfold flavourCounts. rewrite list_elem_of_omap. split.
  - intros [row [[n Hn]%(range_rows w c row Hw) Hx]]. eauto.
  - intros (n & row & Hn & Hx). exists row. split; [|done].
    apply range_rows; eauto.
Qed.

Lemma clusterMin_range w c fl :
  world_wf w →
  minimumZ (flavourCounts fl (wRange w c).*2) = clusterMin c fl.
Proof.
  intros Hw. unfold clusterMin, flavourCounts.
  apply minimumZ_perm. by rewrite (Hw c).
Qed.

Lemma clusterMin_Some c fl m :
  clusterMin c fl = Some m
  ↔ (∃ n row, c !! n = Some row ∧ row !! fl = Some m)
    ∧ (∀ n row x, c !! n = Some row → row !! fl = Some x → m ≤ x).
Proof.
  set (w := mkWorld 0 None None 0 map_to_list).
  assert (Hw : world_wf w) by (intros ?; done).
  rewrite <- (clusterMin_range w c fl Hw), minimumZ_Some.
  rewrite flavourCounts_rows by done.
  split; intros [Hex Hmin]; (split; [done|]).
  - intros n row x Hn Hx. apply Hmin, flavourCounts_rows; eauto.
  - intros x (n & row & Hn & Hx)%flavourCounts_rows; eauto.
Qed.

Lemma clusterMin_None c fl :
  clusterMin c fl = None ↔ ∀ n row, c !! n = Some row → row !! fl = None.
Proof.
  set (w := mkWorld 0 None None 0 map_to_list).
  assert (Hw : world_wf w) by (intros ?; done).
  rewrite <- (clusterMin_range w c fl Hw), minimumZ_None. split.
  - intros Hnil n row Hn. destruct (row !! fl) as [x|] eqn:Hx; [|done].
    assert (Hin : x ∈ flavourCounts fl (wRange w c).*2)
      by (apply flavourCounts_rows; eauto).
    rewrite Hnil in Hin. inversion Hin.
  - intros Hnone. destruct (flavourCounts fl _) as [|x l] eqn:Hl; [done|].
    assert (Hin : x ∈ flavourCounts fl (wRange w c).*2)
      by (rewrite Hl; apply list_elem_of_here).
    apply flavourCounts_rows in Hin as (n & row & Hn & Hx); [|done].
    rewrite (Hnone n row Hn) in Hx. done.
Qed.

(** The loop of [Score] finds the smallest recorded count, in whatever
    order the rows are visited; [-1] stands for "no entry". *)
Lemma minPodsLoop_clusterMin w c fl :
  world_wf w → counts_nonneg c →
  minPodsLoop fl (wRange w c).*2 = default (-1) (clusterMin c fl).
Proof.
  intros Hw Hnn. rewrite minPodsLoop_natural.
  - by rewrite clusterMin_range.
  - apply Forall_forall. intros x (n & row & Hn & Hx)%flavourCounts_rows;
      [|done]. by eapply counts_nonneg_lookup.
Qed.

Lemma clusterMin_nonneg c fl m :
  counts_nonneg c → clusterMin c fl = Some m → 0 ≤ m.
Proof.
  intros Hnn [(n & row & Hn & Hx) _]%clusterMin_Some.
  by eapply counts_nonneg_lookup.
Qed.

End Tables.

Section ScoreFacts.

Implicit Types (f : FlavourClusterWide) (c : Cache) (w : World) (pod : Pod).

Lemma getCount_nonneg c n fl : counts_nonneg c → 0 ≤ getCount c n fl.
Proof.
  intros Hnn. unfold getCount.
  destruct (c !! n) as [row|] eqn:Hn; simpl;
    [|rewrite ?lookup_empty; simpl; lia].
  destruct (row !! fl) as [x|] eqn:Hx; simpl; [|lia].
  by eapply counts_nonneg_lookup.
Qed.

Lemma getCount_absent_row c n fl : c !! n = None → getCount c n fl = 0.
Proof. intros Hn. unfold getCount. rewrite Hn. simpl. by rewrite ?lookup_empty. Qed.

Lemma getCount_absent_entry c n fl :
  (∀ row, c !! n = Some row → row !! fl = None) → getCount c n fl = 0.
Proof.
  intros Hrow. destruct (c !! n) as [row|] eqn:Hn.
  - unfold getCount. rewrite Hn. simpl. by rewrite (Hrow row).
  - by apply getCount_absent_row.
Qed.

(** [Score] on a labelled pod: refresh, then read. *)
Lemma Score_labelled f w pod n :
  labelOf (podLabels pod) (labelName f) ≠ ""%string →
  Score f w pod n
  = ((updateCacheIfNeeded f w).1, (updateCacheIfNeeded f w).2,
     scoreLocked (wRange w (cache (updateCacheIfNeeded f w).1))
       (cache (updateCacheIfNeeded f w).1)
       (labelOf (podLabels pod) (labelName f)) n).
Proof.
  intros Hfl. unfold Score. rewrite decide_False by done.
  by destruct (updateCacheIfNeeded f w).
Qed.

Lemma Score_unlabelled_eq f w pod n :
  labelOf (podLabels pod) (labelName f) = ""%string →
  Score f w pod n
  = (f, [], (0, NewStatus Success (notAppliedMessage (labelName f)))).
Proof. intros Hfl. unfold Score. by rewrite decide_True. Qed.

Lemma scoreLocked_cases rows c fl n :
  scoreLocked rows c fl n = (100, NewStatus Success "")
  ∧ getCount c n fl = minPodsLoop fl rows.*2
  ∨ scoreLocked rows c fl n = (0, NewStatus Success "")
    ∧ getCount c n fl ≠ minPodsLoop fl rows.*2.
Proof.
  unfold scoreLocked.
  destruct (Z.eqb_spec (getCount c n fl) (minPodsLoop fl rows.*2)); auto.
Qed.

(** The binary rule in terms of the smallest recorded count. *)
Lemma scoreLocked_rule w c fl n :
  world_wf w → counts_nonneg c →
  scoreLocked (wRange w c) c fl n
  = (if decide (clusterMin c fl = Some (getCount c n fl)) then 100 else 0,
     NewStatus Success "").
Proof.
  intros Hw Hnn. unfold scoreLocked.
  rewrite minPodsLoop_clusterMin by done.
  pose proof (getCount_nonneg c n fl Hnn) as Hge.
  destruct (clusterMin c fl) as [m|] eqn:Hm.
  - change (default (-1) (Some m)) with m.
    destruct (Z.eqb_spec (getCount c n fl) m) as [Heq|Hne];
      case_decide; congruence.
  - change (default (-1) (@None Z)) with (-1).
    destruct (Z.eqb_spec (getCount c n fl) (-1)) as [Heq|_]; [lia|].
    case_decide; congruence.
Qed.

Lemma updateCacheIfNeeded_fresh f w :
  GoTime.Since (wNow w) (lastUpdated f) < 1 * GoTime.Minute →
  updateCacheIfNeeded f w = (f, []).
Proof.
  intros Hlt. unfold updateCacheIfNeeded.
  by destruct (Z.ltb_spec (GoTime.Since (wNow w) (lastUpdated f))
                 (1 * GoTime.Minute)); [|lia].
Qed.

Lemma updateCacheIfNeeded_failed f w :
  1 * GoTime.Minute ≤ GoTime.Since (wNow w) (lastUpdated f) →
  wNodes w = None ∨ wPods w = None →
  (updateCacheIfNeeded f w).1 = f
  ∧ ((updateCacheIfNeeded f w).2 = [EvListNodes workerSelector]
     ∨ (updateCacheIfNeeded f w).2
       = [EvListNodes workerSelector; EvListPods (labelName f)]).
Proof.
  intros Hdue Hfail. unfold updateCacheIfNeeded.
  destruct (Z.ltb_spec (GoTime.Since (wNow w) (lastUpdated f))
              (1 * GoTime.Minute)); [lia|].
  destruct (wNodes w) as [nodes|]; [|by auto].
  destruct Hfail as [Hn|Hp]; [done|]. rewrite Hp. auto.
Qed.

Lemma updateCacheIfNeeded_outage f w :
  wNodes w = None ∨ wPods w = None → (updateCacheIfNeeded f w).1 = f.
Proof.
  intros Hfail. unfold updateCacheIfNeeded.
  destruct (_ <? _); [done|].
  destruct (wNodes w) as [nodes|]; [|done].
  destruct Hfail as [Hn|Hp]; [done|]. by rewrite Hp.
Qed.

Lemma Since_lt_Minute now t :
  now - t < 1 * GoTime.Minute → GoTime.Since now t < 1 * GoTime.Minute.
Proof.
  unfold GoTime.Since, GoTime.Sub, GoTime.maxDuration, GoTime.minDuration,
    GoTime.Minute, GoTime.Second, GoTime.Nanosecond.
  intros Hlt. repeat case_match; lia.
Qed.

Lemma updateCacheIfNeeded_label f w :
  labelName (updateCacheIfNeeded f w).1 = labelName f.
Proof.
  unfold updateCacheIfNeeded. repeat case_match; done.
Qed.

End ScoreFacts.

Section PostBindFacts.

Implicit Types (f : FlavourClusterWide) (c : Cache) (pod : Pod).

Lemma lookup_backfill fl c n :
  backfill fl c !! n
  = (λ row : Row, match row !! fl with
                  | Some _ => row
                  | None => <[fl := 0]> row
                  end) <$> c !! n.
Proof. unfold backfill. by rewrite lookup_fmap. Qed.

Lemma getCount_insert_row c n row fl :
  getCount (<[n := row]> c) n fl = default 0 (row !! fl).
Proof. unfold getCount. by rewrite lookup_insert_eq. Qed.

(** The count [PostBind] increments is the one the table held before,
    zero when the row or the entry had to be created. *)
Lemma PostBind_cell f pod n :
  let fl := labelOf (podLabels pod) (labelName f) in
  fl ≠ ""%string →
  ∃ row, cache (PostBind f pod n) !! n = Some row
         ∧ row !! fl = Some (GoInt.incr (getCount (cache f) n fl)).
Proof.
  intros fl Hfl. unfold PostBind. fold fl. rewrite decide_False by done.
  cbn [cache]. eexists. split; [apply lookup_insert_eq|].
  rewrite lookup_insert_eq. f_equal. f_equal.
  destruct (cache f !! n) as [row|] eqn:Hn.
  - rewrite Hn. red_default.
    destruct (row !! fl) as [x|] eqn:Hx; [done|].
    unfold getCount at 1.
    rewrite lookup_backfill, lookup_insert_eq. cbn [fmap option_fmap option_map].
    red_default. rewrite !lookup_insert_eq. red_default.
    unfold getCount. rewrite Hn. red_default. by rewrite Hx.
  - rewrite lookup_insert_eq. red_default. rewrite lookup_empty.
    unfold getCount at 1.
    rewrite lookup_backfill, lookup_insert_eq. cbn [fmap option_fmap option_map].
    red_default. rewrite !lookup_insert_eq. red_default.
    unfold getCount. rewrite Hn. red_default. by rewrite lookup_empty.
Qed.

Lemma PostBind_unlabelled f pod n :
  labelOf (podLabels pod) (labelName f) = ""%string → PostBind f pod n = f.
Proof. intros Hfl. unfold PostBind. by rewrite decide_True. Qed.

End PostBindFacts.

Lemma elem_of_flavoursOf (c : Cache) (fl : string) :
  fl ∈ flavoursOf c ↔ ∃ n row, c !! n = Some row ∧ is_Some (row !! fl).
Proof.
  unfold flavoursOf. rewrite elem_of_union_list. split.
  - intros (D & HD & Hfl).
    apply list_elem_of_fmap in HD as (row & -> & Hrow).
    apply list_elem_of_fmap in Hrow as ([n row'] & -> & Hin).
    apply elem_of_map_to_list in Hin. exists n, row'. split; [done|].
    by apply elem_of_dom.
  - intros (n & row & Hn & Hfl). exists (dom row). split.
    + apply list_elem_of_fmap. exists row. split; [done|].
      apply list_elem_of_fmap. exists (n, row). split; [done|].
      by apply elem_of_map_to_list.
    + by apply elem_of_dom.
Qed.

Lemma uniform_flavours (c : Cache) :
  uniform c ↔ map_Forall (λ _ (row : Row), flavoursOf c ⊆ dom row) c.
Proof.
  split.
  - intros Hu n row Hn fl (n' & row' & Hn' & Hfl)%elem_of_flavoursOf.
    apply elem_of_dom. by eapply (Hu n row n' row').
  - intros Hall n row n' row' fl Hn Hn' Hfl.
    apply elem_of_dom, (Hall n row Hn), elem_of_flavoursOf. eauto.
Qed.

#[global] Instance uniform_dec (c : Cache) : Decision (uniform c).
Proof.
  refine (cast_if (decide (map_Forall
                             (λ _ (row : Row), flavoursOf c ⊆ dom row) c)));
    by rewrite uniform_flavours.
Defined.

Section Uniformity.

Implicit Types (c : Cache) (D : gset string) (f : FlavourClusterWide).

Lemma uniform_on_uniform D c : uniform_on D c → uniform c.
Proof.
  intros HD n row n' row' fl Hn Hn' Hfl.
  apply elem_of_dom. rewrite (HD n row Hn), <- (HD n' row' Hn').
  by apply elem_of_dom.
Qed.

Lemma uniform_uniform_on c n row :
  uniform c → c !! n = Some row → uniform_on (dom row) c.
Proof.
  intros Hu Hn n' row' Hn'. apply set_eq. intros fl.
  rewrite !elem_of_dom. split; intros Hfl.
  - by eapply (Hu n row n' row').
  - by eapply (Hu n' row' n row).
Qed.

Lemma uniform_empty : uniform ∅.
Proof. intros n row n' row' fl Hn. by rewrite lookup_empty in Hn. Qed.

Lemma union_singleton_absorb (fl : string) (D : gset string) :
  fl ∈ D → {[fl]} ∪ D = D.
Proof. intros Hin. by apply subseteq_union_1_L, singleton_subseteq_l. Qed.

Lemma backfill_dom fl c n row' :
  backfill fl c !! n = Some row' →
  ∃ row, c !! n = Some row ∧ dom row' = {[fl]} ∪ dom row.
Proof.
  rewrite lookup_backfill. intros (row & Hrow & ->)%fmap_Some.
  exists row. split; [done|].
  destruct (row !! fl) as [x|] eqn:Hx.
  - rewrite union_singleton_absorb; [done|]. apply elem_of_dom. eauto.
  - by rewrite dom_insert_L.
Qed.

(** Incrementing a cell that exists keeps the shape of the table. *)
Lemma uniform_on_increment D c n row fl v :
  uniform_on D c → c !! n = Some row → fl ∈ D →
  uniform_on D (<[n := <[fl := v]> row]> c).
Proof.
  intros HD Hn Hfl. apply map_Forall_insert_2; [|done].
  rewrite dom_insert_L, (HD n row Hn). by apply union_singleton_absorb.
Qed.

Lemma PostBind_uniform_on f pod n D :
  podFlavour f pod ≠ ""%string →
  uniform_on D (cache f) → is_Some (cache f !! n) →
  uniform_on ({[podFlavour f pod]} ∪ D) (cache (PostBind f pod n)).
Proof.
  intros Hfl HD [row Hn]. unfold PostBind. fold (podFlavour f pod).
  set (fl := podFlavour f pod) in *.
  rewrite decide_False by done. cbn [cache].
  rewrite Hn. cbv beta iota. rewrite Hn. red_default.
  pose proof (HD n row Hn) as Hrow. cbn in Hrow.
  destruct (row !! fl) as [x|] eqn:Hx.
  - assert (Hin : fl ∈ D) by (rewrite <- Hrow; apply elem_of_dom; eauto).
    rewrite Hn. red_default.
    rewrite union_singleton_absorb by done.
    by apply uniform_on_increment.
  - set (c2 := backfill fl (<[n:=<[fl:=0]> row]> (cache f))).
    assert (H2 : uniform_on ({[fl]} ∪ D) c2).
    { intros n' row' Hn'. cbn.
      apply backfill_dom in Hn' as (r & Hr & ->).
      apply lookup_insert_Some in Hr as [[_ <-]|[_ Hr]].
      - rewrite dom_insert_L, Hrow, (assoc_L (∪)). by rewrite union_idemp_L.
      - by rewrite (HD n' r Hr). }
    assert (is_Some (c2 !! n)) as [row2 Hrow2].
    { unfold c2. rewrite lookup_backfill, lookup_insert_eq. by eexists. }
    rewrite Hrow2. red_default.
    apply uniform_on_increment; [done..|].
    by apply elem_of_union_l, elem_of_singleton.
Qed.

(** [PostBind] to a node that has a row keeps a uniform table uniform. *)
Lemma PostBind_uniform_known_node f pod n :
  uniform (cache f) → is_Some (cache f !! n) →
  uniform (cache (PostBind f pod n)).
Proof.
  intros Hu [row Hn].
  destruct (decide (podFlavour f pod = ""%string)) as [Hfl|Hfl].
  - by rewrite PostBind_unlabelled.
  - eapply uniform_on_uniform, PostBind_uniform_on; [done| |by eexists].
    by eapply uniform_uniform_on.
Qed.

End Uniformity.

Section RebuildUniform.

Variable label : string.

Implicit Types (c : Cache) (D : gset string) (pod : Pod).

Lemma discoverFlavours_from (pods : list Pod) D fl :
  fl ∈ foldl (discoverStep label) D pods
  ↔ fl ∈ D ∨ ∃ pod, pod ∈ pods ∧ counted label pod
                    ∧ labelOf (podLabels pod) label = fl.
Proof.
  revert D. induction pods as [|pod pods IH]; intros D; simpl.
  - split; [by left|]. intros [?|(pod & Hin & _)]; [done|]. inversion Hin.
  - rewrite IH. unfold discoverStep, counted. split.
    + intros [Hfl|(p & Hin & Hc & Heq)].
      * repeat case_decide; try by left.
        apply elem_of_union in Hfl as [->%elem_of_singleton|Hfl]; [|by left].
        right. exists pod. split; [apply list_elem_of_here|]. done.
      * right. exists p. split; [by apply list_elem_of_further|]. done.
    + intros [Hfl|(p & Hin & [Hc1 Hc2] & Heq)].
      * left. repeat case_decide; try done. by apply elem_of_union_r.
      * apply elem_of_cons in Hin as [->|Hin].
        -- left. rewrite decide_False by done. rewrite decide_True by done.
           apply elem_of_union_l, elem_of_singleton. done.
        -- right. exists p. done.
Qed.

Lemma initCache_from (nodes : list Node) D c :
  uniform_on D c → uniform_on D (foldl (initStep D) c nodes).
Proof.
  revert c. induction nodes as [|node nodes IH]; intros c Hc; [done|].
  simpl. apply IH. unfold initStep. apply map_Forall_insert_2; [|done].
  apply dom_gset_to_gmap.
Qed.

Lemma initCache_rows (nodes : list Node) D c k :
  k ∈ nodeName <$> nodes ∨ is_Some (c !! k) →
  is_Some (foldl (initStep D) c nodes !! k).
Proof.
  revert c. induction nodes as [|node nodes IH]; intros c; simpl.
  - intros [Hin|?]; [inversion Hin|done].
  - intros Hk. apply IH. unfold initStep.
    destruct (decide (nodeName node = k)) as [<-|Hne].
    + right. rewrite lookup_insert_eq. by eexists.
    + rewrite lookup_insert_ne by done.
      destruct Hk as [[?|?]%elem_of_cons|?]; [congruence|by left|by right].
Qed.

(** A counted pod whose node has a row and whose flavour is a column of
    the table changes one count and nothing else. *)
Lemma countPod_known D c pod :
  uniform_on D c →
  (counted label pod →
   is_Some (c !! podNodeName pod) ∧ labelOf (podLabels pod) label ∈ D) →
  uniform_on D (countPod label c pod)
  ∧ ∀ k, is_Some (c !! k) → is_Some (countPod label c pod !! k).
Proof.
  intros HD Hpod. unfold countPod.
  case_decide as Hnode; [done|]. cbv zeta.
  case_decide as Hfl; [done|].
  destruct (Hpod (conj Hnode Hfl)) as [[row Hrow] Hin].
  rewrite Hrow. cbv beta iota. rewrite Hrow. red_default.
  assert (is_Some (row !! labelOf (podLabels pod) label)) as [x Hx].
  { apply elem_of_dom. by rewrite (HD _ _ Hrow). }
  rewrite Hx. cbv beta iota. split.
  - by apply uniform_on_increment.
  - intros k Hk. destruct (decide (podNodeName pod = k)) as [<-|Hne].
    + rewrite lookup_insert_eq. by eexists.
    + by rewrite lookup_insert_ne.
Qed.

Lemma rebuild_from (nodes : list Node) D c (pods : list Pod) :
  uniform_on D c →
  (∀ k, k ∈ nodeName <$> nodes → is_Some (c !! k)) →
  (∀ pod, pod ∈ pods → counted label pod →
          podNodeName pod ∈ nodeName <$> nodes
          ∧ labelOf (podLabels pod) label ∈ D) →
  uniform_on D (foldl (countPod label) c pods).
Proof.
  revert c. induction pods as [|pod pods IH]; intros c HD Hrows Hpods;
    [done|].
  simpl.
  destruct (countPod_known D c pod HD) as [HD' Hrows'].
  { intros Hc. destruct (Hpods pod (list_elem_of_here _ _) Hc) as [Hk Hfl].
    split; [by apply Hrows|done]. }
  apply IH; [done| |].
  - intros k Hk. by apply Hrows', Hrows.
  - intros p Hp. apply Hpods. by apply list_elem_of_further.
Qed.

(** A rebuild in which every counted pod runs on a listed node yields a
    table whose rows all have the discovered flavours. *)
Lemma rebuild_uniform_on (nodes : list Node) (pods : list Pod) :
  pods_on_listed label nodes pods →
  uniform_on (discoverFlavours label pods) (rebuild label nodes pods).
Proof.
  intros Hlisted. unfold rebuild. apply (rebuild_from nodes).
  - apply initCache_from. apply map_Forall_empty.
  - intros k Hk. apply initCache_rows. by left.
  - intros pod Hin Hc. split; [by apply Hlisted|].
    apply discoverFlavours_from. right. by exists pod.
Qed.

End RebuildUniform.

(** X19: as long as no row is created on demand the table stays uniform:
    in every state reached from [New] by refreshes whose counted pods all
    run on listed nodes, by [Score] calls with such refreshes and by
    [PostBind] to nodes that have a row, every row has an entry for every
    flavour that occurs in the table. *)
Lemma reachable_known_uniform :
  ∀ f, reachable_known f → uniform (cache f).
Proof.
  assert (Hup : ∀ f w,
            uniform (cache f) →
            (∀ nodes pods, wNodes w = Some nodes → wPods w = Some pods →
                           pods_on_listed (labelName f) nodes pods) →
            uniform (cache (updateCacheIfNeeded f w).1)).
  { intros g w Hu Hlisted. unfold updateCacheIfNeeded.
    repeat case_match; try done. cbn [fst cache].
    eapply uniform_on_uniform, rebuild_uniform_on. by apply Hlisted. }
  induction 1 as [configOk clientOk obj f Hnew
                 |f w _ IH Hlisted|f pod n _ IH Hn|f w pod n _ IH Hlisted].
  - unfold New in Hnew. repeat case_match; try discriminate.
    injection Hnew as <-. apply uniform_empty.
  - by apply Hup.
  - by apply PostBind_uniform_known_node.
  - destruct (decide (podFlavour f pod = ""%string)) as [Hfl|Hfl].
    + by rewrite Score_unlabelled_eq.
    + rewrite Score_labelled by done. by apply Hup.
Qed.

Section Bounds.

Implicit Types (c : Cache) (b : Z).

Lemma counts_within_nonneg b c : counts_within b c → counts_nonneg c.
Proof.
  intros Hb n row Hn fl x Hx. by destruct (Hb n row Hn fl x Hx).
Qed.

Lemma counts_within_mono b b' c :
  b ≤ b' → counts_within b c → counts_within b' c.
Proof.
  intros Hle Hb n row Hn fl x Hx. destruct (Hb n row Hn fl x Hx). lia.
Qed.

Lemma counts_within_getCount b c n fl :
  0 ≤ b → counts_within b c → 0 ≤ getCount c n fl ≤ b.
Proof.
  intros Hb Hc. unfold getCount.
  destruct (c !! n) as [row|] eqn:Hn; red_default.
  - destruct (row !! fl) as [x|] eqn:Hx; red_default; [|lia].
    exact (Hc n row Hn fl x Hx).
  - rewrite lookup_empty. red_default. lia.
Qed.

Lemma counts_within_insert b c n (row : Row) fl x :
  counts_within b c → 0 ≤ x ≤ b →
  (row = ∅ ∨ ∃ n', c !! n' = Some row) →
  counts_within b (<[n := <[fl := x]> row]> c).
Proof.
  intros Hc Hx Hrow. apply map_Forall_insert_2; [|done].
  apply map_Forall_insert_2; [done|].
  destruct Hrow as [->|[n' Hn']]; [apply map_Forall_empty|].
  exact (Hc n' row Hn').
Qed.

Lemma backfill_within b c fl :
  0 ≤ b → counts_within b c → counts_within b (backfill fl c).
Proof.
  intros Hb Hc n row' Hn'. rewrite lookup_backfill in Hn'.
  apply fmap_Some in Hn' as (row & Hn & ->). cbn.
  destruct (row !! fl); [exact (Hc n row Hn)|].
  apply map_Forall_insert_2; [lia | exact (Hc n row Hn)].
Qed.

(** Far from the top of the [int] range [PostBind] adds at most one to
    the largest count. *)
Lemma PostBind_within b f pod n :
  0 ≤ b < GoInt.intMax →
  counts_within b (cache f) →
  counts_within (b + 1) (cache (PostBind f pod n)).
Proof.
  intros Hb Hc. unfold PostBind.
  case_decide as Hfl; [by apply (counts_within_mono b); [lia|]|].
  cbv zeta. cbn [cache].
  set (fl := labelOf (podLabels pod) (labelName f)).
  set (c1 := match cache f !! n with
             | Some _ => cache f
             | None => <[n:=∅]> (cache f)
             end).
  assert (H1 : counts_within b c1).
  { unfold c1. destruct (cache f !! n); [done|].
    apply map_Forall_insert_2; [apply map_Forall_empty|done]. }
  set (c2 := match default ∅ (c1 !! n) !! fl with
             | Some _ => c1
             | None => backfill fl (<[n:=<[fl:=0]> (default ∅ (c1 !! n))]> c1)
             end).
  assert (H2 : counts_within b c2).
  { unfold c2. destruct (default ∅ (c1 !! n) !! fl); [done|].
    apply backfill_within; [lia|].
    apply counts_within_insert; [done|lia|].
    destruct (c1 !! n) as [row|] eqn:Hn; red_default; eauto. }
  pose proof (counts_within_getCount b c2 n fl ltac:(lia) H2) as Hcount.
  apply counts_within_insert.
  - by apply (counts_within_mono b); [lia|].
  - rewrite GoInt_incr_small by lia. lia.
  - destruct (c2 !! n) as [row|] eqn:Hn; red_default; eauto.
Qed.

Lemma countPod_within (label : string) b c pod :
  0 ≤ b < GoInt.intMax →
  counts_within b c → counts_within (b + 1) (countPod label c pod).
Proof.
  intros Hb Hc. unfold countPod.
  case_decide as Hnode; [by apply (counts_within_mono b); [lia|]|].
  cbv zeta.
  case_decide as Hfl; [by apply (counts_within_mono b); [lia|]|].
  set (fl := labelOf (podLabels pod) label).
  set (c1 := match c !! podNodeName pod with
             | Some _ => c
             | None => <[podNodeName pod:=∅]> c
             end).
  assert (H1 : counts_within b c1).
  { unfold c1. destruct (c !! podNodeName pod); [done|].
    apply map_Forall_insert_2; [apply map_Forall_empty|done]. }
  set (row := default ∅ (c1 !! podNodeName pod)).
  assert (Hrow : map_Forall (λ _ x, 0 ≤ x ≤ b) row).
  { unfold row. destruct (c1 !! podNodeName pod) as [r|] eqn:Hr; red_default.
    - exact (H1 _ r Hr).
    - apply map_Forall_empty. }
  set (row1 := match row !! fl with
               | Some _ => row
               | None => <[fl:=0]> row
               end).
  assert (Hrow1 : map_Forall (λ _ x, 0 ≤ x ≤ b) row1).
  { unfold row1. destruct (row !! fl); [done|].
    apply map_Forall_insert_2; [lia|done]. }
  assert (Hx : 0 ≤ default 0 (row1 !! fl) ≤ b).
  { destruct (row1 !! fl) as [x|] eqn:Hx; red_default; [|lia].
    exact (Hrow1 fl x Hx). }
  apply map_Forall_insert_2.
  - apply map_Forall_insert_2.
    + rewrite GoInt_incr_small by lia. lia.
    + intros k x Hk. destruct (Hrow1 k x Hk). lia.
  - by apply (counts_within_mono b); [lia|].
Qed.

Lemma foldl_countPod_within (label : string) (pods : list Pod) b c :
  0 ≤ b → b + Z.of_nat (length pods) ≤ GoInt.intMax →
  counts_within b c →
  counts_within (b + Z.of_nat (length pods)) (foldl (countPod label) c pods).
Proof.
  revert b c. induction pods as [|pod pods IH]; intros b c Hb Hlen Hc.
  - cbn [foldl length]. replace (b + Z.of_nat 0) with b by lia. exact Hc.
  - simpl foldl. rewrite length_cons in *.
    replace (b + Z.of_nat (S (length pods)))
      with ((b + 1) + Z.of_nat (length pods)) by lia.
    apply IH; [lia|lia|]. apply countPod_within; [lia|done].
Qed.

Lemma initCache_within (nodes : list Node) (D : gset string) :
  counts_within 0 (initCache nodes D).
Proof.
  unfold initCache.
  assert (Hgen : ∀ c, counts_within 0 c →
                      counts_within 0 (foldl (initStep D) c nodes)).
  { induction nodes as [|node nodes IH]; intros c Hc; [done|].
    simpl. apply IH. unfold initStep. apply map_Forall_insert_2; [|done].
    intros fl x [_ <-]%lookup_gset_to_gmap_Some. lia. }
  apply Hgen, map_Forall_empty.
Qed.

(** A rebuild counts at most one per listed pod. *)
Lemma rebuild_within (label : string) (nodes : list Node) (pods : list Pod) :
  Z.of_nat (length pods) ≤ GoInt.intMax →
  counts_within (Z.of_nat (length pods)) (rebuild label nodes pods).
Proof.
  intros Hlen. unfold rebuild.
  replace (Z.of_nat (length pods)) with (0 + Z.of_nat (length pods)) by lia.
  apply foldl_countPod_within; [lia|lia|apply initCache_within].
Qed.

End Bounds.

(** Below zero the loop of [Score] depends on the order of the rows: -1
    is both a count and the "nothing seen yet" mark. *)
Example minPodsLoop_order_below_zero :
  minPodsLoop "gold" [row1 "gold" (-1); row1 "gold" 3] = 3
  ∧ minPodsLoop "gold" [row1 "gold" 3; row1 "gold" (-1)] = -1.
Proof. split; by vm_compute. Qed.

(** * The score *)

(** C4, as stated, fails when the cluster-wide minimum reads a missing
    entry as zero. In the reachable table
    [{A:{gold:1, silver:0}, B:{silver:1}}] that minimum is 0 for gold:
    node A, whose count 1 is not the minimum, scores 100, and node B, whose
    count 0 is the minimum, scores 0, in either visiting order. In
    [{A:{gold:2}, B:{gold:5}, C:{gold:2}}] the minimum for silver is 0 and
    node A, whose count is 0, scores 0. *)
Lemma binary_rule_absent_as_zero_counterexample :
  let f := afterNewNodeBind in
  let w := outageWorld (t0 + seconds 5) in
  let w' := mkWorld (t0 + seconds 5) None None (t0 + seconds 5)
              (λ c, reverse (map_to_list c)) in
  let g := mkPlugin tableABC t0 "flavour" in
  (counts_nonneg (cache f)
   ∧ (updateCacheIfNeeded f w).1 = f
   ∧ (updateCacheIfNeeded f w').1 = f
   ∧ clusterMinAbsentZero (cache f) "gold" = Some 0)
  ∧ (getCount (cache f) "A" "gold" = 1
     ∧ (Score f w podGold "A").2 = (100, NewStatus Success "")
     ∧ (Score f w' podGold "A").2 = (100, NewStatus Success ""))
  ∧ (getCount (cache f) "B" "gold" = 0
     ∧ (Score f w podGold "B").2 = (0, NewStatus Success "")
     ∧ (Score f w' podGold "B").2 = (0, NewStatus Success ""))
  ∧ (clusterMinAbsentZero (cache g) "silver" = Some 0
     ∧ getCount (cache g) "A" "silver" = 0
     ∧ (updateCacheIfNeeded g w).1 = g
     ∧ (Score g w podSilver "A").2 = (0, NewStatus Success "")).
Proof.
  intros f w w' g.
  split; [split; [apply (bool_decide_unpack _); by vm_compute|]|].
  - repeat split; by vm_compute.
  - repeat split; by vm_compute.
Qed.

(** C4 (amended): on a labelled pod, over natural counts and in whatever
    order the rows are visited, [Score] answers 100 when the candidate
    node's count for the flavour, read as 0 when the node has no row or no
    entry, is the smallest count among the rows that have an entry for the
    flavour, and 0 otherwise, in particular when no row has an entry;
    always with a [Success] status. With the table
    [{A:{gold:2}, B:{gold:5}, C:{gold:2}}] nodes A and C score 100 and
    node B scores 0. *)
Theorem Score_binary_rule :
  (∀ f w pod n,
     world_wf w →
     podFlavour f pod ≠ ""%string →
     counts_nonneg (cache (updateCacheIfNeeded f w).1) →
     (Score f w pod n).2
     = (if decide (clusterMin (cache (updateCacheIfNeeded f w).1)
                     (podFlavour f pod)
                   = Some (getCount (cache (updateCacheIfNeeded f w).1) n
                             (podFlavour f pod)))
        then 100 else 0,
        NewStatus Success ""))
  ∧ (∀ w t pod,
       world_wf w →
       GoTime.Since (wNow w) t < 1 * GoTime.Minute →
       labelOf (podLabels pod) "flavour" = "gold"%string →
       let f := mkPlugin tableABC t "flavour" in
       (Score f w pod "A").2 = (100, NewStatus Success "")
       ∧ (Score f w pod "B").2 = (0, NewStatus Success "")
       ∧ (Score f w pod "C").2 = (100, NewStatus Success "")).
Proof.
  assert (Hrule : ∀ f w pod n,
     world_wf w →
     podFlavour f pod ≠ ""%string →
     counts_nonneg (cache (updateCacheIfNeeded f w).1) →
     (Score f w pod n).2
     = (if decide (clusterMin (cache (updateCacheIfNeeded f w).1)
                     (podFlavour f pod)
                   = Some (getCount (cache (updateCacheIfNeeded f w).1) n
                             (podFlavour f pod)))
        then 100 else 0,
        NewStatus Success "")).
  { intros f w pod n Hw Hfl Hnn. rewrite Score_labelled by done.
    cbn [snd]. by apply scoreLocked_rule. }
  split; [exact Hrule|].
  intros w t pod Hw Hfresh Hgold f.
  assert (Hfl : podFlavour f pod = "gold"%string) by exact Hgold.
  assert (Hup : updateCacheIfNeeded f w = (f, []))
    by (by apply updateCacheIfNeeded_fresh).
  assert (Hnn : counts_nonneg (cache (updateCacheIfNeeded f w).1)).
  { rewrite Hup. apply (bool_decide_unpack _). by vm_compute. }
  assert (Hne : podFlavour f pod ≠ ""%string) by (by rewrite Hfl).
  rewrite !Hrule by done. rewrite Hup, Hfl. cbn [fst cache f].
  repeat split; by vm_compute.
Qed.

Lemma Score_binary_rule_witness :
  let f := mkPlugin tableABC t0 "flavour" in
  let w := outageWorld (t0 + seconds 30) in
  (world_wf w ∧ podFlavour f podGold ≠ ""%string
   ∧ counts_nonneg (cache (updateCacheIfNeeded f w).1))
  ∧ (Score f w podGold "B").2
    = (if decide (clusterMin (cache (updateCacheIfNeeded f w).1)
                    (podFlavour f podGold)
                  = Some (getCount (cache (updateCacheIfNeeded f w).1) "B"
                            (podFlavour f podGold)))
       then 100 else 0,
       NewStatus Success "")
  ∧ (Score f w podGold "A").2 = (100, NewStatus Success "").
Proof.
  intros f w.
  assert (Hw : world_wf w) by (intros c; reflexivity).
  assert (Hfl : podFlavour f podGold ≠ ""%string) by (by vm_compute).
  assert (Hnn : counts_nonneg (cache (updateCacheIfNeeded f w).1))
    by (apply (bool_decide_unpack _); by vm_compute).
  split; [done|]. split.
  - exact (proj1 Score_binary_rule f w podGold "B"%string Hw Hfl Hnn).
  - refine (proj1 (proj2 Score_binary_rule w t0 podGold Hw _ _)).
    + by vm_compute.
    + by vm_compute.
Defined.

(** C2, as stated, fails: in the table [{A:{gold:2}, B:{silver:1}}] row B
    has no entry for gold; the loop of [Score] leaves 2 in [minPods] in
    either visiting order, whereas reading the missing entry as zero makes
    the minimum 0. Node A therefore scores 100. *)
Lemma absent_row_is_skipped_counterexample :
  counts_nonneg tableGoldSilver
  ∧ minPodsLoop "gold" [row1 "gold" 2; row1 "silver" 1] = 2
  ∧ minPodsLoop "gold" [row1 "silver" 1; row1 "gold" 2] = 2
  ∧ minPodsLoop "gold" (map_to_list tableGoldSilver).*2 = 2
  ∧ clusterMinAbsentZero tableGoldSilver "gold" = Some 0
  ∧ Some (minPodsLoop "gold" (map_to_list tableGoldSilver).*2)
    ≠ clusterMinAbsentZero tableGoldSilver "gold"
  ∧ scoreLocked (map_to_list tableGoldSilver) tableGoldSilver "gold" "A"
    = (100, NewStatus Success "").
Proof.
  split; [apply (bool_decide_unpack _); by vm_compute|].
  repeat split; by vm_compute.
Qed.

(** C2 (amended): over a table of natural counts, in whatever order the
    rows are visited, the minimum computed by [Score] is the smallest count
    among the rows that have an entry for the flavour; rows without an
    entry are skipped, and the result is the sentinel -1 when no row has
    an entry. *)
Theorem minPods_over_rows_with_entry w c fl :
  world_wf w → counts_nonneg c →
  let minPods := minPodsLoop fl (wRange w c).*2 in
  minPods = default (-1) (clusterMin c fl)
  ∧ ((∀ n row, c !! n = Some row → row !! fl = None) → minPods = -1)
  ∧ (∀ n row x, c !! n = Some row → row !! fl = Some x →
       0 ≤ minPods ≤ x
       ∧ ∃ n' row', c !! n' = Some row' ∧ row' !! fl = Some minPods).
Proof.
  intros Hw Hnn minPods.
  assert (Heq : minPods = default (-1) (clusterMin c fl))
    by (by apply minPodsLoop_clusterMin).
  split; [done|]. split.
  - intros Hnone. apply clusterMin_None in Hnone. by rewrite Heq, Hnone.
  - intros n row x Hn Hx.
    destruct (clusterMin c fl) as [m|] eqn:Hm.
    + change (default (-1) (Some m)) with m in Heq. rewrite Heq.
      pose proof (clusterMin_nonneg c fl m Hnn Hm).
      apply clusterMin_Some in Hm as [Hex Hmin].
      split; [|done]. split; [done|]. by eapply Hmin.
    + pose proof (proj1 (clusterMin_None c fl) Hm n row Hn). congruence.
Qed.

Lemma minPods_over_rows_with_entry_witness :
  let w := outageWorld t0 in
  (world_wf w ∧ counts_nonneg tableGoldSilver)
  ∧ minPodsLoop "gold" (wRange w tableGoldSilver).*2
    = default (-1) (clusterMin tableGoldSilver "gold").
Proof.
  intros w.
  assert (Hw : world_wf w) by (intros c; reflexivity).
  assert (Hnn : counts_nonneg tableGoldSilver)
    by (apply (bool_decide_unpack _); by vm_compute).
  split; [done|].
  exact (proj1 (minPods_over_rows_with_entry w tableGoldSilver "gold" Hw Hnn)).
Defined.

(** C9: when no row of the table [Score] reads has an entry for the pod's
    flavour (the empty table included), [Score] answers 0 with a [Success]
    status: the sentinel -1 is never the candidate's count, which is 0. *)
Theorem Score_no_entry f w pod n :
  world_wf w →
  podFlavour f pod ≠ ""%string →
  (∀ node row, cache (updateCacheIfNeeded f w).1 !! node = Some row →
               row !! podFlavour f pod = None) →
  (Score f w pod n).2 = (0, NewStatus Success "").
Proof.
  intros Hw Hfl Hnone. rewrite Score_labelled by done. cbn [snd].
  fold (podFlavour f pod). set (c := cache (updateCacheIfNeeded f w).1) in *.
  unfold scoreLocked. rewrite minPodsLoop_no_entry.
  - rewrite getCount_absent_entry; [done|]. intros row. apply Hnone.
  - apply Forall_forall. intros row [node Hnode]%(range_rows w c row Hw).
    by eapply Hnone.
Qed.

Lemma Score_no_entry_witness :
  let w := outageWorld t0 in
  (world_wf w ∧ podFlavour freshPlugin podGold ≠ ""%string
   ∧ ∀ node row,
       cache (updateCacheIfNeeded freshPlugin w).1 !! node = Some row →
       row !! podFlavour freshPlugin podGold = None)
  ∧ (Score freshPlugin w podGold "A").2 = (0, NewStatus Success "").
Proof.
  intros w.
  assert (Hw : world_wf w) by (intros c; reflexivity).
  assert (Hfl : podFlavour freshPlugin podGold ≠ ""%string)
    by (by vm_compute).
  assert (Hnone : ∀ node row,
             cache (updateCacheIfNeeded freshPlugin w).1 !! node = Some row →
             row !! podFlavour freshPlugin podGold = None).
  { intros node row Hrow. vm_compute in Hrow. discriminate. }
  split; [done|].
  exact (Score_no_entry freshPlugin w podGold "A"%string Hw Hfl Hnone).
Defined.

(** C10: a candidate node without a row in the table is read with count
    0; it scores 100 exactly when the loop leaves 0 in [minPods], which
    over natural counts means that the smallest count among the rows with
    an entry for the flavour is 0. *)
Theorem Score_unknown_node f w pod n :
  world_wf w →
  podFlavour f pod ≠ ""%string →
  cache (updateCacheIfNeeded f w).1 !! n = None →
  let c := cache (updateCacheIfNeeded f w).1 in
  let fl := podFlavour f pod in
  getCount c n fl = 0
  ∧ ((Score f w pod n).2.1 = 100 ↔ minPodsLoop fl (wRange w c).*2 = 0)
  ∧ ((Score f w pod n).2.1 = 0 ↔ minPodsLoop fl (wRange w c).*2 ≠ 0)
  ∧ (counts_nonneg c →
     ((Score f w pod n).2.1 = 100 ↔ clusterMin c fl = Some 0)).
Proof.
  intros Hw Hfl Hrow c fl.
  assert (Hcount : getCount c n fl = 0) by (by apply getCount_absent_row).
  assert (Hscore : (Score f w pod n).2 = scoreLocked (wRange w c) c fl n)
    by (by rewrite Score_labelled).
  assert (Hcode : (Score f w pod n).2.1 = 100
                  ↔ minPodsLoop fl (wRange w c).*2 = 0).
  { rewrite Hscore.
    destruct (scoreLocked_cases (wRange w c) c fl n) as [[-> Heq]|[-> Hne]];
      cbn [fst]; rewrite Hcount in *; split; intros; congruence. }
  split; [done|]. split; [done|]. split.
  - rewrite <- Hcode, Hscore.
    destruct (scoreLocked_cases (wRange w c) c fl n) as [[-> _]|[-> _]];
      cbn [fst]; split; intros; congruence.
  - intros Hnn. rewrite Hcode, minPodsLoop_clusterMin by done.
    destruct (clusterMin c fl) as [m|] eqn:Hm.
    + change (default (-1) (Some m)) with m. split; congruence.
    + change (default (-1) (@None Z)) with (-1). split; [lia|congruence].
Qed.

Lemma Score_unknown_node_witness :
  let f := mkPlugin tableGoldSilver t0 "flavour" in
  let w := outageWorld (t0 + seconds 1) in
  (world_wf w ∧ podFlavour f podGold ≠ ""%string
   ∧ cache (updateCacheIfNeeded f w).1 !! "Z"%string = None)
  ∧ getCount (cache (updateCacheIfNeeded f w).1) "Z" (podFlavour f podGold)
    = 0.
Proof.
  intros f w.
  assert (Hw : world_wf w) by (intros c; reflexivity).
  assert (Hfl : podFlavour f podGold ≠ ""%string) by (by vm_compute).
  assert (Hrow : cache (updateCacheIfNeeded f w).1 !! "Z"%string = None)
    by (by vm_compute).
  split; [done|].
  exact (proj1 (Score_unknown_node f w podGold "Z"%string Hw Hfl Hrow)).
Defined.

(** C7: for a pod whose configured label is absent or empty, [Score]
    answers 0 with a [Success] status whose message says that scoring is
    not applied; it does so before any refresh: no API request is issued
    and the plugin state is the one it was called in. *)
Theorem Score_unlabelled f w pod n :
  podLabels pod !! labelName f = None
  ∨ podLabels pod !! labelName f = Some ""%string →
  Score f w pod n
  = (f, [],
     (0, NewStatus Success
           ("Pod does not have the '" +:+ labelName f
            +:+ "' label, scoring is not applied"))).
Proof.
  intros Hlabel. apply Score_unlabelled_eq. unfold labelOf.
  by destruct Hlabel as [-> | ->].
Qed.

Lemma Score_unlabelled_witness :
  let w := inventoryWorld t0 [mkNode "A"] [labelled "db-1" "A" "gold"] in
  (podLabels podPlain !! labelName freshPlugin = None
   ∨ podLabels podPlain !! labelName freshPlugin = Some ""%string)
  ∧ Score freshPlugin w podPlain "A"
    = (freshPlugin, [],
       (0, NewStatus Success
             "Pod does not have the 'flavour' label, scoring is not applied")).
Proof.
  intros w.
  assert (Hlabel : podLabels podPlain !! labelName freshPlugin = None
                   ∨ podLabels podPlain !! labelName freshPlugin
                     = Some ""%string) by (left; by vm_compute).
  split; [done|].
  exact (Score_unlabelled freshPlugin w podPlain "A"%string Hlabel).
Defined.

(** C8: [Score] and [PostBind] are defined on every table, flavour and
    node name. [Score] always answers with a [Success] status and a score
    of 0 or 100. [PostBind] on a labelled pod leaves the node's row with
    an entry for the flavour holding the previous count incremented by
    Go's [++], the previous count being 0 when the row or the entry did
    not exist; on an unlabelled pod it changes nothing. *)
Theorem total_on_unknown_inputs f w pod n :
  (statusCode (Score f w pod n).2.2 = Success
   ∧ ((Score f w pod n).2.1 = 0 ∨ (Score f w pod n).2.1 = 100))
  ∧ (cache (PostBind f pod n) !! n ≫= (λ row : Row, row !! podFlavour f pod))
    = (if decide (podFlavour f pod = ""%string)
       then cache f !! n ≫= (λ row : Row, row !! podFlavour f pod)
       else Some (GoInt.incr (getCount (cache f) n (podFlavour f pod))))
  ∧ lastUpdated (PostBind f pod n) = lastUpdated f
  ∧ labelName (PostBind f pod n) = labelName f.
Proof.
  split; [|split; [|split]].
  - destruct (decide (podFlavour f pod = ""%string)) as [Hfl|Hfl].
    + rewrite Score_unlabelled_eq by done. cbn. auto.
    + rewrite Score_labelled by done. cbn [snd].
      destruct (scoreLocked_cases
                  (wRange w (cache (updateCacheIfNeeded f w).1))
                  (cache (updateCacheIfNeeded f w).1)
                  (labelOf (podLabels pod) (labelName f)) n)
        as [[-> _]|[-> _]]; cbn; auto.
  - case_decide as Hfl.
    + by rewrite PostBind_unlabelled.
    + destruct (PostBind_cell f pod n Hfl) as (row & -> & Hrow). exact Hrow.
  - unfold PostBind. by case_decide.
  - unfold PostBind. by case_decide.
Qed.

(** C6: when a refresh is due and the node listing or the pod listing
    fails, [updateCacheIfNeeded] returns the state it was called in, table
    and timestamp untouched; the [Score] call that ran into the failure,
    and any later [Score] call made while the API still fails, answers
    with a [Success] status and the score read from that table. *)
Theorem refresh_failure_keeps_table f w :
  1 * GoTime.Minute ≤ GoTime.Since (wNow w) (lastUpdated f) →
  wNodes w = None ∨ wPods w = None →
  (updateCacheIfNeeded f w).1 = f
  ∧ (updateCacheIfNeeded f w).2 ≠ []
  ∧ (∀ pod n,
       (Score f w pod n).1.1 = f
       ∧ statusCode (Score f w pod n).2.2 = Success
       ∧ (podFlavour f pod ≠ ""%string →
          (Score f w pod n).2
          = scoreLocked (wRange w (cache f)) (cache f) (podFlavour f pod) n))
  ∧ (∀ w' pod n pod' n',
       wNodes w' = None ∨ wPods w' = None →
       let f1 := (Score f w pod n).1.1 in
       (Score f1 w' pod' n').1.1 = f
       ∧ statusCode (Score f1 w' pod' n').2.2 = Success
       ∧ (podFlavour f pod' ≠ ""%string →
          (Score f1 w' pod' n').2
          = scoreLocked (wRange w' (cache f)) (cache f)
              (podFlavour f pod') n')).
Proof.
  intros Hdue Hfail.
  destruct (updateCacheIfNeeded_failed f w Hdue Hfail) as [Hst Hev].
  assert (Hscore : ∀ v pod n,
            wNodes v = None ∨ wPods v = None →
            (Score f v pod n).1.1 = f
            ∧ statusCode (Score f v pod n).2.2 = Success
            ∧ (podFlavour f pod ≠ ""%string →
               (Score f v pod n).2
               = scoreLocked (wRange v (cache f)) (cache f)
                   (podFlavour f pod) n)).
  { intros v pod n Hv.
    pose proof (updateCacheIfNeeded_outage f v Hv) as Hsame.
    destruct (decide (podFlavour f pod = ""%string)) as [Hfl|Hfl].
    - rewrite Score_unlabelled_eq by done. cbn. done.
    - rewrite Score_labelled by done. cbn [fst snd]. rewrite Hsame.
      split; [done|]. split; [|done].
      destruct (scoreLocked_cases (wRange v (cache f)) (cache f)
                  (labelOf (podLabels pod) (labelName f)) n)
        as [[-> _]|[-> _]]; done. }
  split; [done|]. split; [destruct Hev as [-> | ->]; done|].
  split; [intros pod n; by apply Hscore|].
  intros w' pod n pod' n' Hfail' f1.
  assert (Hf1 : f1 = f) by (by apply Hscore).
  rewrite Hf1. by apply Hscore.
Qed.

Lemma refresh_failure_keeps_table_witness :
  let f := mkPlugin tableABC t0 "flavour" in
  let w := mkWorld (t0 + seconds 90) (Some [mkNode "A"]) None
             (t0 + seconds 91) map_to_list in
  (1 * GoTime.Minute ≤ GoTime.Since (wNow w) (lastUpdated f)
   ∧ (wNodes w = None ∨ wPods w = None))
  ∧ (updateCacheIfNeeded f w).1 = f.
Proof.
  intros f w.
  assert (Hdue : 1 * GoTime.Minute ≤ GoTime.Since (wNow w) (lastUpdated f))
    by (by vm_compute).
  assert (Hfail : wNodes w = None ∨ wPods w = None) by (by right).
  split; [done|].
  exact (proj1 (refresh_failure_keeps_table f w Hdue Hfail)).
Defined.

(** * The refresh policy *)


(** C5, as stated, fails in its second half: the minute is counted from
    the last rebuild, not from the previous [Score] call. The plugin
    rebuilt its table at [t0]; a [Score] call 50 seconds later finds the
    table fresh, and a second one 20 seconds after the first finds it 70
    seconds old, queries the API again and reads another table. *)
Lemma ttl_counted_from_rebuild_counterexample :
  let w0 := inventoryWorld t0 [mkNode "A"] [labelled "db-1" "A" "gold"] in
  let w1 := inventoryWorld (t0 + seconds 50) twoNodes twoPods in
  let w2 := inventoryWorld (t0 + seconds 70) twoNodes twoPods in
  let s1 := Score ttlPlugin w1 podGold "A" in
  let s2 := Score s1.1.1 w2 podGold "A" in
  (Score freshPlugin w0 podGold "A").1.1 = ttlPlugin
  ∧ 0 ≤ wNow w2 - wNow w1 < 1 * GoTime.Minute
  ∧ s1.1 = (ttlPlugin, [])
  ∧ s2.1.2 = [EvListNodes workerSelector; EvListPods "flavour"]
  ∧ cache s2.1.1 ≠ cache s1.1.1.
Proof.
  intros w0 w1 w2 s1 s2.
  split; [by vm_compute|]. split; [by vm_compute|].
  split; [by vm_compute|]. split; [by vm_compute|].
  intros Heq. apply (f_equal (λ c : Cache, c !! "B"%string)) in Heq.
  vm_compute in Heq. discriminate.
Qed.

(** C5 (amended): while less than one minute has elapsed since
    [lastUpdated], [updateCacheIfNeeded] returns without a request to the
    API and leaves the table and the timestamp as they were. Hence a
    [Score] call made less than one minute after the timestamp left by the
    previous [Score] call, with no [PostBind] in between, issues no request
    and reads the table the previous call read; this is so in particular
    when the previous call rebuilt the table and the next one reads the
    clock less than one minute after that rebuild. *)
Theorem ttl_frame :
  (∀ f w,
     GoTime.Since (wNow w) (lastUpdated f) < 1 * GoTime.Minute →
     updateCacheIfNeeded f w = (f, []))
  ∧ (∀ f w1 w2 pod1 pod2 n1 n2,
       let f1 := (Score f w1 pod1 n1).1.1 in
       GoTime.Since (wNow w2) (lastUpdated f1) < 1 * GoTime.Minute →
       (Score f1 w2 pod2 n2).1 = (f1, []))
  ∧ (∀ f w1 w2 pod1 pod2 n1 n2 nodes pods,
       podFlavour f pod1 ≠ ""%string →
       1 * GoTime.Minute ≤ GoTime.Since (wNow w1) (lastUpdated f) →
       wNodes w1 = Some nodes → wPods w1 = Some pods →
       wNow w2 - wNowAfter w1 < 1 * GoTime.Minute →
       let f1 := (Score f w1 pod1 n1).1.1 in
       cache f1 = rebuild (labelName f) nodes pods
       ∧ (Score f1 w2 pod2 n2).1 = (f1, [])).
Proof.
  assert (Hsecond : ∀ f1 w2 pod2 n2,
            GoTime.Since (wNow w2) (lastUpdated f1) < 1 * GoTime.Minute →
            (Score f1 w2 pod2 n2).1 = (f1, [])).
  { intros f1 w2 pod2 n2 Hfresh.
    destruct (decide (podFlavour f1 pod2 = ""%string)) as [Hfl|Hfl].
    - by rewrite Score_unlabelled_eq.
    - rewrite Score_labelled by done. cbn [fst].
      by rewrite updateCacheIfNeeded_fresh. }
  split; [exact updateCacheIfNeeded_fresh|].
  split; [intros f w1 w2 pod1 pod2 n1 n2 f1; apply Hsecond|].
  intros f w1 w2 pod1 pod2 n1 n2 nodes pods Hfl Hdue Hnodes Hpods Hnear f1.
  assert (Hf1 : f1 = {| cache := rebuild (labelName f) nodes pods;
                        lastUpdated := wNowAfter w1;
                        labelName := labelName f |}).
  { unfold f1. rewrite Score_labelled by done. cbn [fst].
    unfold updateCacheIfNeeded.
    destruct (Z.ltb_spec (GoTime.Since (wNow w1) (lastUpdated f))
                (1 * GoTime.Minute)); [lia|].
    by rewrite Hnodes, Hpods. }
  split; [by rewrite Hf1|].
  apply Hsecond. rewrite Hf1. cbn [lastUpdated]. by apply Since_lt_Minute.
Qed.

Lemma ttl_frame_witness :
  let w0 := inventoryWorld t0 [mkNode "A"] [labelled "db-1" "A" "gold"] in
  let w1 := inventoryWorld (t0 + seconds 50) twoNodes twoPods in
  (GoTime.Since (wNow w1) (lastUpdated ttlPlugin) < 1 * GoTime.Minute
   ∧ podFlavour freshPlugin podGold ≠ ""%string
   ∧ 1 * GoTime.Minute ≤ GoTime.Since (wNow w0) (lastUpdated freshPlugin)
   ∧ wNow w1 - wNowAfter w0 < 1 * GoTime.Minute)
  ∧ updateCacheIfNeeded ttlPlugin w1 = (ttlPlugin, [])
  ∧ (Score (Score freshPlugin w0 podGold "A").1.1 w1 podGold "B").1
    = ((Score freshPlugin w0 podGold "A").1.1, []).
Proof.
  intros w0 w1.
  assert (H1 : GoTime.Since (wNow w1) (lastUpdated ttlPlugin)
               < 1 * GoTime.Minute) by (by vm_compute).
  assert (H2 : podFlavour freshPlugin podGold ≠ ""%string) by (by vm_compute).
  assert (H3 : 1 * GoTime.Minute
               ≤ GoTime.Since (wNow w0) (lastUpdated freshPlugin))
    by (by vm_compute).
  assert (H4 : wNow w1 - wNowAfter w0 < 1 * GoTime.Minute) by (by vm_compute).
  split; [done|]. split.
  - exact (proj1 ttl_frame ttlPlugin w1 H1).
  - exact (proj2 (proj2 (proj2 ttl_frame) freshPlugin w0 w1 podGold podGold
                    "A"%string "B"%string _ _ H2 H3 eq_refl eq_refl H4)).
Defined.

(** * Uniformity of the table *)

(** C1 fails on the code: a row created on demand gets only the flavour
    being counted. (1) A rebuild that meets a labelled pod on a node absent
    from the node listing yields [{A:{gold:1, silver:0}, M:{silver:1}}].
    (2) [PostBind] of a silver pod to the new node B, from the uniform
    table [{A:{gold:1}}], yields [{A:{gold:1, silver:0}, B:{silver:1}}].
    Both states are reachable and neither is uniform. *)
Theorem uniformity_broken_by_on_demand_rows :
  (reachable afterUnlistedRebuild
   ∧ cache afterUnlistedRebuild
     = {["A"%string := rowGoldSilver 1 0; "M"%string := row1 "silver" 1]}
   ∧ ¬ uniform (cache afterUnlistedRebuild))
  ∧ (reachable ttlPlugin
     ∧ uniform (cache ttlPlugin)
     ∧ reachable afterNewNodeBind
     ∧ cache afterNewNodeBind
       = {["A"%string := rowGoldSilver 1 0; "B"%string := row1 "silver" 1]}
     ∧ ¬ uniform (cache afterNewNodeBind)).
Proof.
  assert (Hfresh : reachable freshPlugin)
    by (by apply (reach_New true true ArgsNil)).
  assert (Hw : ∀ now nodes pods, world_wf (inventoryWorld now nodes pods))
    by (intros now nodes pods c; reflexivity).
  assert (Httl : reachable ttlPlugin).
  { replace ttlPlugin with (updateCacheIfNeeded freshPlugin wOneNode).1
      by (by vm_compute).
    apply reach_update; [done | apply Hw]. }
  split; [split; [|split] | split; [|split; [|split; [|split]]]].
  - apply reach_update; [done | apply Hw].
  - by vm_compute.
  - intros Hu. apply (bool_decide_pack _) in Hu. by vm_compute in Hu.
  - done.
  - apply (bool_decide_unpack _). by vm_compute.
  - replace afterNewNodeBind with (PostBind ttlPlugin podSilver "B")
      by (by vm_compute).
    by apply reach_PostBind.
  - by vm_compute.
  - intros Hu. apply (bool_decide_pack _) in Hu. by vm_compute in Hu.
Qed.

(** C3 fails on the code in its last part: three gold pods bound to A
    take [{A:{gold:0}}] to [{A:{gold:3}}], and a silver pod bound to B then
    back-fills [silver:0] into row A, but the row created for B is
    [{silver:1}]: it has no entry for gold. *)
Theorem PostBind_gold_then_silver :
  let f3 := PostBind (PostBind (PostBind (plugin0 tableA0) podGold "A")
                        podGold "A") podGold "A" in
  let f4 := PostBind f3 podSilver "B" in
  cache f3 = {["A"%string := row1 "gold" 3]}
  ∧ cache f4
    = {["A"%string := rowGoldSilver 3 0; "B"%string := row1 "silver" 1]}
  ∧ cache f4 !! "B"%string ≫= (λ row : Row, row !! "gold"%string) = None
  ∧ cache f4
    ≠ {["A"%string := rowGoldSilver 3 0; "B"%string := rowGoldSilver 0 1]}.
Proof.
  intros f3 f4.
  split; [by vm_compute|]. split; [by vm_compute|]. split; [by vm_compute|].
  intros Heq.
  apply (f_equal (λ c : Cache,
                    c !! "B"%string ≫= (λ row : Row, row !! "gold"%string)))
    in Heq.
  vm_compute in Heq. discriminate.
Qed.

(** * Cells of the table *)

Section Cells.

Implicit Types (c : Cache) (f : FlavourClusterWide) (pod : Pod).

Lemma getCount_cell c n fl : getCount c n fl = default 0 (cell c n fl).
Proof.
  unfold getCount, cell. destruct (c !! n) as [row|]; [done|].
  cbn. by rewrite lookup_empty.
Qed.

Lemma cell_Some c n fl x :
  cell c n fl = Some x ↔ ∃ row, c !! n = Some row ∧ row !! fl = Some x.
Proof. unfold cell. apply bind_Some. Qed.

Lemma cell_None_row c n fl : c !! n = None → cell c n fl = None.
Proof. unfold cell. by intros ->. Qed.

(** Two tables with the same rows and the same cells are the same. *)
Lemma cache_eq_cells c c' :
  (∀ n, is_Some (c !! n) ↔ is_Some (c' !! n)) →
  (∀ n fl, cell c n fl = cell c' n fl) →
  c = c'.
Proof.
  intros Hrows Hcells. apply map_eq. intros n.
  specialize (Hrows n). pose proof (Hcells n) as Hn. unfold cell in Hn.
  destruct (c !! n) as [row|], (c' !! n) as [row'|]; cbn in Hn.
  - f_equal. by apply map_eq.
  - destruct (proj1 Hrows) as [? [=]]. by eexists.
  - destruct (proj2 Hrows) as [? [=]]. by eexists.
  - done.
Qed.

End Cells.

(** * The rebuild, cell by cell *)

Section RebuildCells.

Variable label : string.

Implicit Types (c : Cache) (pod : Pod) (pods : list Pod) (D : gset string).

Lemma initCache_from_lookup (nodes : list Node) D c n :
  foldl (initStep D) c nodes !! n
  = if decide (n ∈ nodeName <$> nodes) then Some (gset_to_gmap 0 D)
    else c !! n.
Proof.
  revert c. induction nodes as [|node nodes IH]; intros c.
  - cbn. rewrite decide_False; [done|]. by intros ?%elem_of_nil.
  - cbn [foldl]. rewrite IH. rewrite fmap_cons. unfold initStep.
    destruct (decide (n ∈ nodeName <$> nodes)) as [Hin|Hnin].
    + rewrite decide_True; [done|]. by apply list_elem_of_further.
    + destruct (decide (nodeName node = n)) as [<-|Hne].
      * rewrite lookup_insert_eq, decide_True; [done|].
        apply list_elem_of_here.
      * rewrite lookup_insert_ne by done. rewrite decide_False; [done|].
        intros [?|?]%elem_of_cons; congruence.
Qed.

Lemma initCache_lookup (nodes : list Node) D n :
  initCache nodes D !! n
  = if decide (n ∈ nodeName <$> nodes) then Some (gset_to_gmap 0 D)
    else None.
Proof.
  unfold initCache. rewrite initCache_from_lookup.
  case_decide; [done|]. apply lookup_empty.
Qed.

Lemma initCache_cell (nodes : list Node) D n fl :
  cell (initCache nodes D) n fl
  = if decide (n ∈ nodeName <$> nodes ∧ fl ∈ D) then Some 0 else None.
Proof.
  unfold cell. rewrite initCache_lookup.
  destruct (decide (n ∈ nodeName <$> nodes)) as [Hn|Hn]; cbn.
  - rewrite lookup_gset_to_gmap.
    destruct (decide (fl ∈ D)) as [Hfl|Hfl].
    + rewrite option_guard_True by done. cbn. by rewrite decide_True.
    + rewrite option_guard_False by done. cbn.
      rewrite decide_False; [done|]. by intros [_ ?].
  - rewrite decide_False; [done|]. by intros [? _].
Qed.

(** One step of the second pass: the pod's cell is incremented, created
    at zero first when it was missing; every other cell is left alone. *)
Lemma countPod_cell c pod n fl :
  cell (countPod label c pod) n fl
  = if decide (countedIn label n fl pod)
    then Some (GoInt.incr (default 0 (cell c n fl)))
    else cell c n fl.
Proof.
  unfold countPod, countedIn, counted.
  destruct (decide (podNodeName pod = ""%string)) as [Hnode|Hnode].
  { rewrite decide_False; [done|]. by intros [[? _] _]. }
  cbv zeta.
  destruct (decide (labelOf (podLabels pod) label = ""%string)) as [Hfl|Hfl].
  { rewrite decide_False; [done|]. by intros [[_ ?] _]. }
  set (node := podNodeName pod) in *.
  set (flv := labelOf (podLabels pod) label) in *.
  set (c1 := match c !! node with
             | Some _ => c
             | None => <[node:=∅]> c
             end).
  assert (Hrow : ∀ k, default ∅ (c1 !! node) !! k = cell c node k).
  { intros k. unfold c1, cell. destruct (c !! node) as [r|] eqn:Hr.
    - by rewrite Hr.
    - rewrite lookup_insert_eq. cbn. by rewrite lookup_empty. }
  assert (Hother : ∀ k, k ≠ node → c1 !! k = c !! k).
  { intros k Hk. unfold c1. destruct (c !! node); [done|].
    by rewrite lookup_insert_ne. }
  destruct (decide (node = n)) as [<-|Hn].
  - unfold cell at 1. rewrite lookup_insert_eq. cbn.
    destruct (decide (flv = fl)) as [<-|Hne].
    + rewrite lookup_insert_eq, decide_True by done. f_equal. f_equal.
      rewrite <- Hrow.
      destruct (default ∅ (c1 !! node) !! flv) as [x|] eqn:Hx.
      * by rewrite Hx.
      * by rewrite lookup_insert_eq.
    + rewrite lookup_insert_ne by done.
      rewrite decide_False by (by intros (_ & _ & ?)).
      rewrite <- Hrow.
      destruct (default ∅ (c1 !! node) !! flv) as [x|] eqn:Hx; [done|].
      by rewrite lookup_insert_ne.
  - unfold cell. rewrite lookup_insert_ne by done.
    rewrite Hother by done.
    by rewrite decide_False by (by intros (_ & ? & _)).
Qed.

Lemma countPod_row c pod k :
  is_Some (countPod label c pod !! k)
  ↔ is_Some (c !! k) ∨ (counted label pod ∧ podNodeName pod = k).
Proof.
  unfold countPod, counted.
  destruct (decide (podNodeName pod = ""%string)) as [Hnode|Hnode].
  { split; [by left|]. by intros [?|[[? _] _]]. }
  cbv zeta.
  destruct (decide (labelOf (podLabels pod) label = ""%string)) as [Hfl|Hfl].
  { split; [by left|]. by intros [?|[[_ ?] _]]. }
  destruct (decide (podNodeName pod = k)) as [<-|Hk].
  - rewrite lookup_insert_eq. split; [by right|]. by eexists.
  - rewrite lookup_insert_ne by done.
    destruct (c !! podNodeName pod).
    + split; [by left|]. by intros [?|[_ ?]].
    + rewrite lookup_insert_ne by done.
      split; [by left|]. by intros [?|[_ ?]].
Qed.

Lemma podsCounted_cons n fl pod pods :
  podsCounted label n fl (pod :: pods)
  = ((if decide (countedIn label n fl pod) then 1 else 0)
     + podsCounted label n fl pods)%nat.
Proof.
  unfold podsCounted. rewrite filter_cons. by case_decide.
Qed.

Lemma foldl_countPod_cell pods c n fl :
  cell (foldl (countPod label) c pods) n fl
  = match podsCounted label n fl pods with
    | O => cell c n fl
    | S k => Some (Nat.iter (S k) GoInt.incr (default 0 (cell c n fl)))
    end.
Proof.
  revert c. induction pods as [|pod pods IH]; intros c; [done|].
  cbn [foldl]. rewrite IH, podsCounted_cons, countPod_cell.
  destruct (decide (countedIn label n fl pod)) as [Hin|Hnin]; [|done].
  destruct (podsCounted label n fl pods) as [|k]; [done|].
  cbn [Nat.add default from_option id]. f_equal.
  by rewrite <- !Nat.iter_succ_r.
Qed.

Lemma foldl_countPod_row pods c k :
  is_Some (foldl (countPod label) c pods !! k)
  ↔ is_Some (c !! k)
    ∨ ∃ pod, pod ∈ pods ∧ counted label pod ∧ podNodeName pod = k.
Proof.
  revert c. induction pods as [|pod pods IH]; intros c.
  - cbn. split; [by left|]. intros [?|(pod & Hin & _)]; [done|].
    by apply elem_of_nil in Hin.
  - cbn [foldl]. rewrite IH, countPod_row. split.
    + intros [[?|[Hc Hk]]|(p & Hin & Hc & Hk)].
      * by left.
      * right. exists pod. split; [apply list_elem_of_here|done].
      * right. exists p. split; [by apply list_elem_of_further|done].
    + intros [?|(p & [->|Hin]%elem_of_cons & Hc & Hk)].
      * by left; left.
      * by left; right.
      * right. by exists p.
Qed.

(** What a rebuild leaves in a cell. *)
Lemma rebuild_cell (nodes : list Node) pods n fl :
  cell (rebuild label nodes pods) n fl
  = match podsCounted label n fl pods with
    | O => if decide (n ∈ nodeName <$> nodes
                      ∧ fl ∈ discoverFlavours label pods)
           then Some 0 else None
    | S k => Some (Nat.iter (S k) GoInt.incr 0)
    end.
Proof.
  unfold rebuild. rewrite foldl_countPod_cell, initCache_cell.
  destruct (podsCounted label n fl pods); [done|].
  by case_decide.
Qed.

Lemma rebuild_row (nodes : list Node) pods k :
  is_Some (rebuild label nodes pods !! k)
  ↔ k ∈ nodeName <$> nodes
    ∨ ∃ pod, pod ∈ pods ∧ counted label pod ∧ podNodeName pod = k.
Proof.
  unfold rebuild. rewrite foldl_countPod_row, initCache_lookup.
  case_decide as Hk; split; try (by left).
  - intros [[? [=]]|?]; by right.
  - intros [?|?]; [done|by right].
Qed.

End RebuildCells.

Section RebuildFacts.

Variable label : string.

Implicit Types (pod : Pod) (pods : list Pod) (nodes : list Node).

Lemma elem_of_discoverFlavours pods fl :
  fl ∈ discoverFlavours label pods
  ↔ ∃ pod, pod ∈ pods ∧ counted label pod
           ∧ labelOf (podLabels pod) label = fl.
Proof.
  unfold discoverFlavours. rewrite discoverFlavours_from.
  split; [|by right]. intros [Hin|?]; [|done]. by apply elem_of_empty in Hin.
Qed.

Lemma podsCounted_pos n fl pods :
  podsCounted label n fl pods ≠ O
  ↔ ∃ pod, pod ∈ pods ∧ countedIn label n fl pod.
Proof.
  unfold podsCounted. split.
  - destruct (filter _ pods) as [|pod l] eqn:Hf; [done|]. intros _.
    assert (Hin : pod ∈ filter (countedIn label n fl) pods)
      by (rewrite Hf; apply list_elem_of_here).
    apply list_elem_of_filter in Hin as [? ?]. by exists pod.
  - intros (pod & Hin & Hc).
    assert (Hf : pod ∈ filter (countedIn label n fl) pods)
      by (by apply list_elem_of_filter).
    destruct (filter _ pods); [by apply elem_of_nil in Hf|done].
Qed.

Lemma podsCounted_le n fl pods :
  (podsCounted label n fl pods ≤ length pods)%nat.
Proof. apply length_filter. Qed.

Lemma iter_incr_small (k : nat) :
  Z.of_nat k ≤ GoInt.intMax → Nat.iter k GoInt.incr 0 = Z.of_nat k.
Proof.
  induction k as [|k IH]; intros Hk; [done|].
  rewrite Nat.iter_succ, IH by lia. rewrite GoInt_incr_small; lia.
Qed.

(** The table a rebuild yields is determined by its rows and cells, so
    listings with the same nodes, the same counted pods per cell and the
    same discovered flavours yield the same table. *)
Lemma rebuild_ext nodes nodes' pods pods' :
  (∀ k, k ∈ nodeName <$> nodes ↔ k ∈ nodeName <$> nodes') →
  (∀ pod, counted label pod → pod ∈ pods ↔ pod ∈ pods') →
  (∀ n fl, podsCounted label n fl pods = podsCounted label n fl pods') →
  rebuild label nodes pods = rebuild label nodes' pods'.
Proof.
  intros Hnodes Hpods Hcount.
  assert (Hex : ∀ P : Pod → Prop,
            (∃ pod, pod ∈ pods ∧ counted label pod ∧ P pod)
            ↔ (∃ pod, pod ∈ pods' ∧ counted label pod ∧ P pod)).
  { intros P. split; intros (pod & Hin & Hc & HP); exists pod;
      (split; [by apply (Hpods pod Hc)|done]). }
  apply cache_eq_cells.
  - intros k. rewrite !rebuild_row, Hnodes. by rewrite Hex.
  - intros n fl. rewrite !rebuild_cell, Hcount.
    destruct (podsCounted label n fl pods'); [|done].
    apply decide_ext. rewrite Hnodes, !elem_of_discoverFlavours.
    by rewrite Hex.
Qed.

End RebuildFacts.

(** * Further properties of the rebuild *)

(** X7: after a rebuild the count read for a node and a flavour is the
    number of listed pods that are assigned to that node and carry that
    flavour (pods without a node or without the label do not count), for
    any listing short enough for Go's [int]. *)
Theorem rebuild_counts_pods (label : string) (nodes : list Node)
    (pods : list Pod) (n fl : string) :
  Z.of_nat (length pods) ≤ GoInt.intMax →
  getCount (rebuild label nodes pods) n fl
  = Z.of_nat (podsCounted label n fl pods).
Proof.
  intros Hlen. rewrite getCount_cell, rebuild_cell.
  pose proof (podsCounted_le label n fl pods) as Hle.
  destruct (podsCounted label n fl pods) as [|k].
  - by case_decide.
  - cbn [default from_option id]. apply iter_incr_small. lia.
Qed.

Lemma rebuild_counts_pods_witness :
  let pods := [labelled "db-1" "A" "gold"; labelled "db-2" "A" "gold";
               labelled "db-3" "B" "gold"; labelled "db-4" "" "gold";
               mkPod "db-5" "A" ∅] in
  Z.of_nat (length pods) ≤ GoInt.intMax
  ∧ getCount (rebuild "flavour" twoNodes pods) "A" "gold"
    = Z.of_nat (podsCounted "flavour" "A" "gold" pods).
Proof.
  intros pods.
  assert (Hlen : Z.of_nat (length pods) ≤ GoInt.intMax) by (by vm_compute).
  split; [done|].
  exact (rebuild_counts_pods "flavour" twoNodes pods "A" "gold" Hlen).
Defined.

(** X8: a rebuild creates a row for the listed nodes and for the nodes
    that host a counted pod, and for no other; a row gets an entry for a
    flavour when the node is listed and the flavour was discovered, or
    when a pod of that flavour is counted on the node, and in no other
    case. *)
Theorem rebuild_rows_and_entries (label : string) (nodes : list Node)
    (pods : list Pod) (n fl : string) :
  (is_Some (rebuild label nodes pods !! n)
   ↔ n ∈ nodeName <$> nodes
     ∨ ∃ pod, pod ∈ pods ∧ counted label pod ∧ podNodeName pod = n)
  ∧ (is_Some (cell (rebuild label nodes pods) n fl)
     ↔ (n ∈ nodeName <$> nodes ∧ fl ∈ discoverFlavours label pods)
       ∨ ∃ pod, pod ∈ pods ∧ countedIn label n fl pod).
Proof.
  split; [apply rebuild_row|].
  rewrite rebuild_cell, <- podsCounted_pos.
  destruct (podsCounted label n fl pods) as [|k].
  - case_decide as Hd; split.
    + by left.
    + by eexists.
    + by intros [? [=]].
    + by intros [?|?].
  - split; [by right|by eexists].
Qed.

(** X9: whatever else the pod listing holds, the row a rebuild gives to
    a listed node has an entry for each discovered flavour and for nothing
    else. *)
Theorem rebuild_listed_rows_uniform (label : string) (nodes : list Node)
    (pods : list Pod) (n : string) :
  n ∈ nodeName <$> nodes →
  ∃ row, rebuild label nodes pods !! n = Some row
         ∧ dom row = discoverFlavours label pods.
Proof.
  intros Hn.
  destruct (proj2 (rebuild_row label nodes pods n) (or_introl Hn))
    as [row Hrow].
  exists row. split; [done|]. apply set_eq. intros fl.
  rewrite elem_of_dom.
  assert (Hcell : cell (rebuild label nodes pods) n fl = row !! fl)
    by (unfold cell; by rewrite Hrow).
  rewrite <- Hcell, rebuild_cell.
  destruct (podsCounted label n fl pods) as [|k] eqn:Hk.
  - case_decide as Hd; split.
    + by intros _; destruct Hd.
    + by eexists.
    + by intros [? [=]].
    + intros Hfl. by destruct Hd.
  - split; [|by eexists]. intros _.
    assert (Hpos : podsCounted label n fl pods ≠ O) by (by rewrite Hk).
    apply podsCounted_pos in Hpos as (pod & Hin & Hc & _ & Hfl).
    apply elem_of_discoverFlavours. by exists pod.
Qed.

Lemma rebuild_listed_rows_uniform_witness :
  let pods := [labelled "db-1" "A" "gold"; labelled "db-2" "M" "silver"] in
  "A"%string ∈ nodeName <$> [mkNode "A"]
  ∧ ∃ row, rebuild "flavour" [mkNode "A"] pods !! "A"%string = Some row
           ∧ dom row = discoverFlavours "flavour" pods.
Proof.
  intros pods.
  assert (Hn : "A"%string ∈ nodeName <$> [mkNode "A"])
    by apply list_elem_of_here.
  split; [done|].
  exact (rebuild_listed_rows_uniform "flavour" [mkNode "A"] pods "A" Hn).
Defined.

(** X10: pods that have no node yet or that lack the label (or have it
    empty) leave no trace in a rebuild: dropping them from the listing
    gives the same table. *)
Theorem rebuild_ignores_uncounted_pods (label : string) (nodes : list Node)
    (pods : list Pod) :
  rebuild label nodes pods
  = rebuild label nodes (filter (counted label) pods).
Proof.
  apply rebuild_ext.
  - done.
  - intros pod Hc. rewrite list_elem_of_filter.
    split; [by split|by intros [_ ?]].
  - intros n fl. unfold podsCounted. f_equal. symmetry.
    apply list_filter_filter_l. by intros pod [? _].
Qed.

(** X11: the table a rebuild yields does not depend on the order in
    which the API lists the nodes and the pods. *)
Theorem rebuild_listing_order (label : string) (nodes nodes' : list Node)
    (pods pods' : list Pod) :
  nodes ≡ₚ nodes' → pods ≡ₚ pods' →
  rebuild label nodes pods = rebuild label nodes' pods'.
Proof.
  intros Hnodes Hpods. apply rebuild_ext.
  - intros k. by rewrite Hnodes.
  - intros pod _. by rewrite Hpods.
  - intros n fl. unfold podsCounted. by rewrite Hpods.
Qed.

Lemma rebuild_listing_order_witness :
  let a := labelled "db-1" "A" "gold" in
  let b := labelled "db-2" "M" "silver" in
  ([mkNode "A"; mkNode "B"] ≡ₚ [mkNode "B"; mkNode "A"]
   ∧ [a; b; a] ≡ₚ [a; a; b])
  ∧ rebuild "flavour" [mkNode "A"; mkNode "B"] [a; b; a]
    = rebuild "flavour" [mkNode "B"; mkNode "A"] [a; a; b].
Proof.
  intros a b.
  assert (Hn : [mkNode "A"; mkNode "B"] ≡ₚ [mkNode "B"; mkNode "A"])
    by apply Permutation_swap.
  assert (Hp : [a; b; a] ≡ₚ [a; a; b])
    by (apply Permutation_skip, Permutation_swap).
  split; [done|].
  exact (rebuild_listing_order "flavour" _ _ _ _ Hn Hp).
Defined.

(** * [PostBind], row by row *)

Section PostBindRows.

Implicit Types (c : Cache) (f : FlavourClusterWide) (pod : Pod).

Lemma GoInt_incr_in_range x :
  GoInt.intMin ≤ x < GoInt.intMax → GoInt.incr x = x + 1.
Proof.
  intros Hx. unfold GoInt.incr. apply GoInt_wrap_small.
  unfold GoInt.intMin, GoInt.intMax in *. lia.
Qed.

(** The row of the bound node afterwards. *)
Lemma PostBind_lookup_same f pod n :
  podFlavour f pod ≠ ""%string →
  cache (PostBind f pod n) !! n
  = Some (<[podFlavour f pod :=
              GoInt.incr (getCount (cache f) n (podFlavour f pod))]>
            (default ∅ (cache f !! n))).
Proof.
  intros Hfl. unfold PostBind. fold (podFlavour f pod).
  set (fl := podFlavour f pod) in *.
  rewrite decide_False by done. cbn [cache].
  rewrite lookup_insert_eq. f_equal.
  destruct (cache f !! n) as [row|] eqn:Hn.
  - rewrite Hn. red_default.
    destruct (row !! fl) as [x|] eqn:Hx.
    + rewrite Hn. by red_default.
    + rewrite lookup_backfill, lookup_insert_eq.
      cbn [fmap option_fmap option_map]. rewrite lookup_insert_eq.
      red_default. rewrite insert_insert_eq.
      unfold getCount at 1.
      rewrite lookup_backfill, lookup_insert_eq.
      cbn [fmap option_fmap option_map]. rewrite lookup_insert_eq.
      red_default. rewrite lookup_insert_eq. red_default.
      unfold getCount. rewrite Hn. red_default. by rewrite Hx.
  - rewrite lookup_insert_eq. red_default. rewrite lookup_empty.
    rewrite lookup_backfill, lookup_insert_eq.
    cbn [fmap option_fmap option_map]. rewrite lookup_insert_eq.
    red_default. rewrite insert_insert_eq.
    unfold getCount at 1.
    rewrite lookup_backfill, lookup_insert_eq.
    cbn [fmap option_fmap option_map]. rewrite lookup_insert_eq.
    red_default. rewrite lookup_insert_eq. red_default.
    unfold getCount. rewrite Hn. red_default. by rewrite lookup_empty.
Qed.

(** The other rows afterwards: back-filled when the bound node's row had
    no entry for the flavour, untouched otherwise. *)
Lemma PostBind_lookup_other f pod n n' :
  podFlavour f pod ≠ ""%string → n' ≠ n →
  cache (PostBind f pod n) !! n'
  = match cell (cache f) n (podFlavour f pod) with
    | Some _ => cache f !! n'
    | None => (λ row : Row, match row !! podFlavour f pod with
                            | Some _ => row
                            | None => <[podFlavour f pod := 0]> row
                            end) <$> cache f !! n'
    end.
Proof.
  intros Hfl Hne. unfold PostBind, cell. fold (podFlavour f pod).
  set (fl := podFlavour f pod) in *.
  rewrite decide_False by done. cbn [cache].
  rewrite lookup_insert_ne by done.
  destruct (cache f !! n) as [row|] eqn:Hn.
  - rewrite Hn. red_default. cbn [mbind option_bind].
    destruct (row !! fl) as [x|] eqn:Hx; [done|].
    by rewrite lookup_backfill, lookup_insert_ne.
  - rewrite lookup_insert_eq. red_default. rewrite lookup_empty.
    cbn [mbind option_bind].
    by rewrite lookup_backfill, !lookup_insert_ne.
Qed.

End PostBindRows.

Section PostBindCells.

Implicit Types (c : Cache) (f : FlavourClusterWide) (pod : Pod).

(** A cell other than the one being bound keeps what it held, or is
    created at zero by the back-fill. *)
Lemma PostBind_cell_other f pod n n' fl' :
  n' ≠ n ∨ fl' ≠ podFlavour f pod →
  cell (cache (PostBind f pod n)) n' fl' = cell (cache f) n' fl'
  ∨ (cell (cache f) n' fl' = None
     ∧ cell (cache (PostBind f pod n)) n' fl' = Some 0).
Proof.
  intros Hother.
  destruct (decide (podFlavour f pod = ""%string)) as [Hfl|Hfl].
  { left. by rewrite PostBind_unlabelled. }
  destruct (decide (n' = n)) as [->|Hn].
  - destruct Hother as [?|Hne]; [done|]. left.
    unfold cell at 1. rewrite PostBind_lookup_same by done.
    cbn [mbind option_bind]. rewrite lookup_insert_ne by done.
    unfold cell. destruct (cache f !! n); [done|]. cbn.
    by rewrite lookup_empty.
  - unfold cell. rewrite PostBind_lookup_other by done.
    destruct (cell (cache f) n (podFlavour f pod)); [by left|].
    destruct (cache f !! n') as [r|] eqn:Hr; [|by left].
    cbn [fmap option_fmap option_map mbind option_bind].
    destruct (r !! podFlavour f pod) as [x|] eqn:Hx; [by left|].
    destruct (decide (fl' = podFlavour f pod)) as [->|Hne].
    + right. by rewrite lookup_insert_eq.
    + left. by rewrite lookup_insert_ne.
Qed.

Lemma PostBind_getCount_same f pod n :
  podFlavour f pod ≠ ""%string →
  getCount (cache (PostBind f pod n)) n (podFlavour f pod)
  = GoInt.incr (getCount (cache f) n (podFlavour f pod)).
Proof.
  intros Hfl. unfold getCount at 1.
  rewrite PostBind_lookup_same by done. red_default.
  by rewrite lookup_insert_eq.
Qed.

Lemma PostBind_labelName f pod n : labelName (PostBind f pod n) = labelName f.
Proof. unfold PostBind. by case_decide. Qed.

Lemma PostBind_lastUpdated f pod n :
  lastUpdated (PostBind f pod n) = lastUpdated f.
Proof. unfold PostBind. by case_decide. Qed.

Lemma PostBind_podFlavour f pod n pod' :
  podFlavour (PostBind f pod n) pod' = podFlavour f pod'.
Proof. unfold podFlavour. by rewrite PostBind_labelName. Qed.

End PostBindCells.

(** * Further properties of [PostBind] *)

(** X12: [PostBind] changes one count only: the count read for any other
    node or any other flavour is what it was, and an entry that existed
    is still there with the value it had. *)
Theorem PostBind_frame (f : FlavourClusterWide) (pod : Pod)
    (n n' fl' : string) :
  n' ≠ n ∨ fl' ≠ podFlavour f pod →
  getCount (cache (PostBind f pod n)) n' fl' = getCount (cache f) n' fl'
  ∧ ∀ x, cell (cache f) n' fl' = Some x →
         cell (cache (PostBind f pod n)) n' fl' = Some x.
Proof.
  intros Hother. rewrite !getCount_cell.
  destruct (PostBind_cell_other f pod n n' fl' Hother) as [->|[-> ->]].
  - by split.
  - by split.
Qed.

Lemma PostBind_frame_witness :
  let f := mkPlugin tableGoldSilver t0 "flavour" in
  ("B"%string ≠ "A"%string ∨ "gold"%string ≠ podFlavour f podGold)
  ∧ getCount (cache (PostBind f podGold "A")) "B" "gold"
    = getCount (cache f) "B" "gold".
Proof.
  intros f.
  assert (Hother : "B"%string ≠ "A"%string
                   ∨ "gold"%string ≠ podFlavour f podGold)
    by (left; by vm_compute).
  split; [done|].
  exact (proj1 (PostBind_frame f podGold "A" "B" "gold" Hother)).
Defined.

(** X13: [PostBind] never drops a row, and the only row it can add is
    the one of the node a labelled pod is bound to. *)
Theorem PostBind_rows (f : FlavourClusterWide) (pod : Pod) (n k : string) :
  is_Some (cache (PostBind f pod n) !! k)
  ↔ is_Some (cache f !! k) ∨ (podFlavour f pod ≠ ""%string ∧ k = n).
Proof.
  destruct (decide (podFlavour f pod = ""%string)) as [Hfl|Hfl].
  { rewrite PostBind_unlabelled by done. split; [by left|].
    by intros [?|[? _]]. }
  destruct (decide (k = n)) as [->|Hk].
  - rewrite PostBind_lookup_same by done. split; [by right|by eexists].
  - rewrite PostBind_lookup_other by done.
    destruct (cell (cache f) n (podFlavour f pod)).
    + split; [by left|]. by intros [?|[_ ?]].
    + rewrite fmap_is_Some. split; [by left|]. by intros [?|[_ ?]].
Qed.

(** X14: [k] bindings of pods of one flavour to one node raise the
    count read for that node and flavour by [k], as long as the result
    fits Go's [int]. *)
Theorem PostBind_repeated (k : nat) (f : FlavourClusterWide) (pod : Pod)
    (n : string) :
  podFlavour f pod ≠ ""%string →
  GoInt.intMin ≤ getCount (cache f) n (podFlavour f pod) →
  getCount (cache f) n (podFlavour f pod) + Z.of_nat k ≤ GoInt.intMax →
  getCount (cache (PostBindTimes k f pod n)) n (podFlavour f pod)
  = getCount (cache f) n (podFlavour f pod) + Z.of_nat k.
Proof.
  intros Hfl Hlo. unfold PostBindTimes.
  induction k as [|k IH]; intros Hhi.
  - cbn. lia.
  - rewrite Nat.iter_succ.
    set (g := Nat.iter k (λ g, PostBind g pod n) f) in *.
    assert (Hlabel : podFlavour g pod = podFlavour f pod).
    { unfold g. clear. induction k as [|k IH]; [done|].
      by rewrite Nat.iter_succ, PostBind_podFlavour. }
    rewrite <- Hlabel at 1. rewrite PostBind_getCount_same
      by (by rewrite Hlabel).
    rewrite Hlabel, IH by lia. rewrite GoInt_incr_in_range; lia.
Qed.

Lemma PostBind_repeated_witness :
  let f := plugin0 tableA0 in
  (podFlavour f podGold ≠ ""%string
   ∧ GoInt.intMin ≤ getCount (cache f) "B" (podFlavour f podGold)
   ∧ getCount (cache f) "B" (podFlavour f podGold) + Z.of_nat 3
     ≤ GoInt.intMax)
  ∧ getCount (cache (PostBindTimes 3 f podGold "B")) "B"
      (podFlavour f podGold)
    = getCount (cache f) "B" (podFlavour f podGold) + Z.of_nat 3.
Proof.
  intros f.
  assert (H1 : podFlavour f podGold ≠ ""%string) by (by vm_compute).
  assert (H2 : GoInt.intMin ≤ getCount (cache f) "B" (podFlavour f podGold))
    by (by vm_compute).
  assert (H3 : getCount (cache f) "B" (podFlavour f podGold) + Z.of_nat 3
               ≤ GoInt.intMax) by (by vm_compute).
  split; [done|].
  exact (PostBind_repeated 3 f podGold "B" H1 H2 H3).
Defined.

(** X15: when the row of the node a pod is bound to has no entry for the
    pod's flavour (or does not exist), [PostBind] leaves every row of the
    table with an entry for that flavour; the rows of the other nodes that
    lacked it get it with count zero. *)
Theorem PostBind_backfills (f : FlavourClusterWide) (pod : Pod)
    (n : string) :
  podFlavour f pod ≠ ""%string →
  cell (cache f) n (podFlavour f pod) = None →
  ∀ n' row', cache (PostBind f pod n) !! n' = Some row' →
    is_Some (row' !! podFlavour f pod)
    ∧ (n' ≠ n → cell (cache f) n' (podFlavour f pod) = None →
       row' !! podFlavour f pod = Some 0).
Proof.
  intros Hfl Hnone n' row' Hrow'.
  destruct (decide (n' = n)) as [->|Hn].
  - rewrite PostBind_lookup_same in Hrow' by done.
    injection Hrow' as <-. rewrite lookup_insert_eq.
    split; [by eexists|done].
  - rewrite PostBind_lookup_other, Hnone in Hrow' by done.
    apply fmap_Some in Hrow' as (r & Hr & ->).
    unfold cell. rewrite Hr. cbn [mbind option_bind].
    destruct (r !! podFlavour f pod) as [x|] eqn:Hx.
    + rewrite Hx. split; [by eexists|]. by intros _ [=].
    + rewrite lookup_insert_eq. split; [by eexists|done].
Qed.

Lemma PostBind_backfills_witness :
  let f := mkPlugin tableABC t0 "flavour" in
  (podFlavour f podSilver ≠ ""%string
   ∧ cell (cache f) "A" (podFlavour f podSilver) = None
   ∧ cache (PostBind f podSilver "A") !! "C"%string
     = Some (rowGoldSilver 2 0))
  ∧ is_Some (rowGoldSilver 2 0 !! podFlavour f podSilver).
Proof.
  intros f.
  assert (H1 : podFlavour f podSilver ≠ ""%string) by (by vm_compute).
  assert (H2 : cell (cache f) "A" (podFlavour f podSilver) = None)
    by (by vm_compute).
  assert (H3 : cache (PostBind f podSilver "A") !! "C"%string
               = Some (rowGoldSilver 2 0)) by (by vm_compute).
  split; [done|].
  exact (proj1 (PostBind_backfills f podSilver "A" H1 H2 "C"
                  (rowGoldSilver 2 0) H3)).
Defined.

(** * The clock and the requests *)

Section Refresh.

Implicit Types (f : FlavourClusterWide) (w : World).

Lemma Since_mono now now' t :
  now ≤ now' → GoTime.Since now t ≤ GoTime.Since now' t.
Proof.
  unfold GoTime.Since, GoTime.Sub, GoTime.maxDuration, GoTime.minDuration.
  intros Hle. repeat case_match; lia.
Qed.

(** A plugin that has never rebuilt its table is stale at any clock
    reading from the second minute of year 1 on. *)
Lemma Since_zeroTime now :
  GoTime.zeroTime + 1 * GoTime.Minute ≤ now →
  1 * GoTime.Minute ≤ GoTime.Since now GoTime.zeroTime.
Proof.
  unfold GoTime.Since, GoTime.Sub, GoTime.maxDuration, GoTime.minDuration,
    GoTime.zeroTime, GoTime.Minute, GoTime.Second, GoTime.Nanosecond.
  intros Hle. repeat case_match; lia.
Qed.

Lemma updateCacheIfNeeded_due f w :
  1 * GoTime.Minute ≤ GoTime.Since (wNow w) (lastUpdated f) →
  updateCacheIfNeeded f w
  = match wNodes w with
    | None => (f, [EvListNodes workerSelector])
    | Some nodes =>
        match wPods w with
        | None => (f, [EvListNodes workerSelector; EvListPods (labelName f)])
        | Some pods =>
            ({| cache := rebuild (labelName f) nodes pods;
                lastUpdated := wNowAfter w;
                labelName := labelName f |},
             [EvListNodes workerSelector; EvListPods (labelName f)])
        end
    end.
Proof.
  intros Hdue. unfold updateCacheIfNeeded.
  by destruct (Z.ltb_spec (GoTime.Since (wNow w) (lastUpdated f))
                 (1 * GoTime.Minute)); [lia|].
Qed.

(** The refresh does not look at the order in which the map is ranged
    over. *)
Lemma updateCacheIfNeeded_same_inputs f w w' :
  wNow w = wNow w' → wNodes w = wNodes w' → wPods w = wPods w' →
  wNowAfter w = wNowAfter w' →
  updateCacheIfNeeded f w = updateCacheIfNeeded f w'.
Proof.
  intros Hnow Hnodes Hpods Hafter. unfold updateCacheIfNeeded.
  by rewrite Hnow, Hnodes, Hpods, Hafter.
Qed.

Lemma configuredLabel_nonempty obj : configuredLabel obj ≠ ""%string.
Proof.
  destruct obj as [|[l|]|l|]; cbn; try done; by case_decide.
Qed.

End Refresh.

(** * Further properties of the refresh *)

(** X1: a refresh sends at most two requests, in a fixed order: the node
    listing with the worker selector, then the pod listing with the label
    name as selector. The pods are listed only if the node listing
    succeeded, and the plugin state changes only if both listings
    succeeded; the label name never changes. *)
Theorem updateCacheIfNeeded_requests (f : FlavourClusterWide) (w : World) :
  (updateCacheIfNeeded f w).2
    `prefix_of` [EvListNodes workerSelector; EvListPods (labelName f)]
  ∧ (EvListPods (labelName f) ∈ (updateCacheIfNeeded f w).2 →
     is_Some (wNodes w))
  ∧ ((updateCacheIfNeeded f w).1 ≠ f →
     (updateCacheIfNeeded f w).2
     = [EvListNodes workerSelector; EvListPods (labelName f)]
     ∧ is_Some (wNodes w) ∧ is_Some (wPods w))
  ∧ labelName (updateCacheIfNeeded f w).1 = labelName f.
Proof.
  unfold updateCacheIfNeeded.
  destruct (_ <? _).
  { cbn. split; [by eexists|]. split; [by intros ?%elem_of_nil|done]. }
  destruct (wNodes w) as [nodes|].
  - destruct (wPods w) as [pods|]; cbn.
    + split; [by exists []|]. split; [by eexists|]. split; [|done].
      intros _. split; [done|]. split; by eexists.
    + split; [by exists []|]. split; [by eexists|]. done.
  - cbn. split; [by eexists|]. split; [|done].
    intros [[=]|?%elem_of_nil]%elem_of_cons. done.
Qed.

(** X2: a refresh that fails leaves the timestamp alone, so the next
    call, at any later clock reading, tries again: it starts with the
    node listing. *)
Theorem refresh_retried_after_failure (f : FlavourClusterWide)
    (w w' : World) :
  1 * GoTime.Minute ≤ GoTime.Since (wNow w) (lastUpdated f) →
  wNodes w = None ∨ wPods w = None →
  wNow w ≤ wNow w' →
  ∃ rest, (updateCacheIfNeeded (updateCacheIfNeeded f w).1 w').2
          = EvListNodes workerSelector :: rest.
Proof.
  intros Hdue Hfail Hlater.
  rewrite (updateCacheIfNeeded_outage f w Hfail).
  rewrite updateCacheIfNeeded_due.
  - destruct (wNodes w'); [destruct (wPods w')|]; by eexists.
  - pose proof (Since_mono (wNow w) (wNow w') (lastUpdated f) Hlater). lia.
Qed.

Lemma refresh_retried_after_failure_witness :
  let f := mkPlugin tableABC t0 "flavour" in
  let w := outageWorld (t0 + seconds 90) in
  let w' := inventoryWorld (t0 + seconds 91) twoNodes twoPods in
  (1 * GoTime.Minute ≤ GoTime.Since (wNow w) (lastUpdated f)
   ∧ (wNodes w = None ∨ wPods w = None)
   ∧ wNow w ≤ wNow w')
  ∧ ∃ rest, (updateCacheIfNeeded (updateCacheIfNeeded f w).1 w').2
            = EvListNodes workerSelector :: rest.
Proof.
  intros f w w'.
  assert (H1 : 1 * GoTime.Minute ≤ GoTime.Since (wNow w) (lastUpdated f))
    by (by vm_compute).
  assert (H2 : wNodes w = None ∨ wPods w = None) by (by left).
  assert (H3 : wNow w ≤ wNow w') by (by vm_compute).
  split; [done|].
  exact (refresh_retried_after_failure f w w' H1 H2 H3).
Defined.

(** X3: the first [Score] of a labelled pod after [New] always goes to
    the API: the zero timestamp makes the table stale at any clock
    reading. *)
Theorem first_Score_queries_inventory (configOk clientOk : bool)
    (obj : PluginArgs) (f : FlavourClusterWide) (w : World) (pod : Pod)
    (n : string) :
  New configOk clientOk obj = Some f →
  GoTime.zeroTime + 1 * GoTime.Minute ≤ wNow w →
  podFlavour f pod ≠ ""%string →
  ∃ rest, (Score f w pod n).1.2 = EvListNodes workerSelector :: rest.
Proof.
  intros Hnew Hnow Hfl. unfold New in Hnew.
  destruct (negb configOk); [done|]. destruct (negb clientOk); [done|].
  injection Hnew as <-. rewrite Score_labelled by done. cbn [fst snd].
  rewrite updateCacheIfNeeded_due by (by apply Since_zeroTime).
  destruct (wNodes w); [destruct (wPods w)|]; by eexists.
Qed.

Lemma first_Score_queries_inventory_witness :
  (New true true ArgsNil = Some freshPlugin
   ∧ GoTime.zeroTime + 1 * GoTime.Minute ≤ wNow wOneNode
   ∧ podFlavour freshPlugin podGold ≠ ""%string)
  ∧ ∃ rest, (Score freshPlugin wOneNode podGold "A").1.2
            = EvListNodes workerSelector :: rest.
Proof.
  assert (H1 : New true true ArgsNil = Some freshPlugin) by reflexivity.
  assert (H2 : GoTime.zeroTime + 1 * GoTime.Minute ≤ wNow wOneNode)
    by (by vm_compute).
  assert (H3 : podFlavour freshPlugin podGold ≠ ""%string)
    by (by vm_compute).
  split; [done|].
  exact (first_Score_queries_inventory true true ArgsNil freshPlugin
           wOneNode podGold "A" H1 H2 H3).
Defined.

(** X4: a successful refresh replaces the table, it does not merge: what
    [PostBind] recorded before it is gone, and the table is the one
    rebuilt from the two listings. *)
Theorem refresh_discards_PostBind (f : FlavourClusterWide) (w : World)
    (pod : Pod) (n : string) (nodes : list Node) (pods : list Pod) :
  1 * GoTime.Minute ≤ GoTime.Since (wNow w) (lastUpdated f) →
  wNodes w = Some nodes → wPods w = Some pods →
  updateCacheIfNeeded (PostBind f pod n) w = updateCacheIfNeeded f w
  ∧ cache (updateCacheIfNeeded (PostBind f pod n) w).1
    = rebuild (labelName f) nodes pods.
Proof.
  intros Hdue Hnodes Hpods.
  rewrite !updateCacheIfNeeded_due
    by (by rewrite ?PostBind_lastUpdated).
  by rewrite Hnodes, Hpods, PostBind_labelName.
Qed.

Lemma refresh_discards_PostBind_witness :
  let f := mkPlugin tableABC t0 "flavour" in
  let w := inventoryWorld (t0 + seconds 61) twoNodes twoPods in
  (1 * GoTime.Minute ≤ GoTime.Since (wNow w) (lastUpdated f)
   ∧ wNodes w = Some twoNodes ∧ wPods w = Some twoPods)
  ∧ updateCacheIfNeeded (PostBind f podGold "C") w
    = updateCacheIfNeeded f w.
Proof.
  intros f w.
  assert (H1 : 1 * GoTime.Minute ≤ GoTime.Since (wNow w) (lastUpdated f))
    by (by vm_compute).
  split; [done|].
  exact (proj1 (refresh_discards_PostBind f w podGold "C" twoNodes twoPods
                  H1 eq_refl eq_refl)).
Defined.

(** X5: after a successful refresh from a pod listing short enough for
    Go's [int], every count of the table lies between zero and the number
    of listed pods; in particular the counts are natural numbers. *)
Theorem refresh_counts_natural (f : FlavourClusterWide) (w : World)
    (nodes : list Node) (pods : list Pod) :
  1 * GoTime.Minute ≤ GoTime.Since (wNow w) (lastUpdated f) →
  wNodes w = Some nodes → wPods w = Some pods →
  Z.of_nat (length pods) ≤ GoInt.intMax →
  counts_within (Z.of_nat (length pods)) (cache (updateCacheIfNeeded f w).1)
  ∧ counts_nonneg (cache (updateCacheIfNeeded f w).1).
Proof.
  intros Hdue Hnodes Hpods Hlen.
  rewrite updateCacheIfNeeded_due, Hnodes, Hpods by done. cbn [fst cache].
  pose proof (rebuild_within (labelName f) nodes pods Hlen) as Hin.
  split; [done|]. by eapply counts_within_nonneg.
Qed.

Lemma refresh_counts_natural_witness :
  let w := inventoryWorld t0 twoNodes twoPods in
  (1 * GoTime.Minute ≤ GoTime.Since (wNow w) (lastUpdated freshPlugin)
   ∧ wNodes w = Some twoNodes ∧ wPods w = Some twoPods
   ∧ Z.of_nat (length twoPods) ≤ GoInt.intMax)
  ∧ counts_nonneg (cache (updateCacheIfNeeded freshPlugin w).1).
Proof.
  intros w.
  assert (H1 : 1 * GoTime.Minute
               ≤ GoTime.Since (wNow w) (lastUpdated freshPlugin))
    by (by vm_compute).
  assert (H2 : Z.of_nat (length twoPods) ≤ GoInt.intMax) by (by vm_compute).
  split; [done|].
  exact (proj2 (refresh_counts_natural freshPlugin w twoNodes twoPods
                  H1 eq_refl eq_refl H2)).
Defined.

(** X6: the label name is the one [New] chose and never changes: in
    every state the plugin goes through after [New] returned it, whatever
    refreshes, [PostBind] and [Score] calls are made, the label name is the
    configured one, or the default where [New] falls back to it; it is
    never empty, so the pod listing never carries an empty selector. *)
Theorem reachable_labelName (configOk clientOk : bool) (obj : PluginArgs)
    (f0 f : FlavourClusterWide) :
  New configOk clientOk obj = Some f0 →
  reachable_from f0 f →
  labelName f = labelName f0
  ∧ labelName f = configuredLabel obj
  ∧ labelName f ≠ ""%string
  ∧ match obj with
    | ArgsV1 (Some l) | ArgsInternal l =>
        if decide (l = ""%string) then labelName f = "flavour"%string
        else labelName f = l
    | _ => labelName f = "flavour"%string
    end.
Proof.
  intros Hnew Hreach.
  assert (Hsame : labelName f = labelName f0).
  { induction Hreach as [|g w _ IH|g pod n _ IH|g w pod n _ IH].
    - done.
    - by rewrite updateCacheIfNeeded_label.
    - by rewrite PostBind_labelName.
    - destruct (decide (podFlavour g pod = ""%string)) as [Hfl|Hfl].
      + by rewrite Score_unlabelled_eq.
      + rewrite Score_labelled by done. cbn [fst].
        by rewrite updateCacheIfNeeded_label. }
  assert (Hconf : labelName f0 = configuredLabel obj).
  { unfold New in Hnew. destruct (negb configOk); [done|].
    destruct (negb clientOk); [done|]. by injection Hnew as <-. }
  split; [done|]. rewrite Hsame, Hconf.
  split; [done|]. split; [apply configuredLabel_nonempty|].
  destruct obj as [|[l|]|l|]; cbn; try done; by case_decide.
Qed.

Lemma reachable_labelName_witness :
  let obj := ArgsV1 (Some "tier"%string) in
  let f0 := mkPlugin ∅ GoTime.zeroTime "tier" in
  let pod := mkPod "db-1" "A" {["tier"%string := "gold"%string]} in
  let w := inventoryWorld t0 [mkNode "A"] [pod] in
  let f := (Score (PostBind (updateCacheIfNeeded f0 w).1 pod "B")
              w pod "A").1.1 in
  (New true true obj = Some f0 ∧ reachable_from f0 f)
  ∧ labelName f = "tier"%string
  ∧ cache f ≠ cache f0.
Proof.
  intros obj f0 pod w f.
  assert (Hnew : New true true obj = Some f0) by reflexivity.
  assert (Hreach : reachable_from f0 f).
  { apply from_Score, from_PostBind, from_update, from_here. }
  split; [done|]. split.
  - exact (proj1 (proj2 (reachable_labelName true true obj f0 f
                           Hnew Hreach))).
  - intros Heq. apply (f_equal (λ c : Cache, c !! "A"%string)) in Heq.
    vm_compute in Heq. discriminate.
Defined.

(** * Further properties of [Score] *)

(** X16: over natural counts the answer of [Score] does not depend on
    the order in which Go ranges over the cache: two calls that see the
    same clock and the same API answers return the same state, requests,
    score and status. *)
Theorem Score_order_independent (f : FlavourClusterWide) (w w' : World)
    (pod : Pod) (n : string) :
  world_wf w → world_wf w' →
  wNow w = wNow w' → wNodes w = wNodes w' → wPods w = wPods w' →
  wNowAfter w = wNowAfter w' →
  counts_nonneg (cache (updateCacheIfNeeded f w).1) →
  Score f w pod n = Score f w' pod n.
Proof.
  intros Hw Hw' Hnow Hnodes Hpods Hafter Hnn.
  destruct (decide (podFlavour f pod = ""%string)) as [Hfl|Hfl].
  - by rewrite !Score_unlabelled_eq.
  - rewrite !Score_labelled by done.
    rewrite <- (updateCacheIfNeeded_same_inputs f w w') by done.
    by rewrite !scoreLocked_rule.
Qed.

Lemma Score_order_independent_witness :
  let f := mkPlugin tableABC t0 "flavour" in
  let w := outageWorld (t0 + seconds 5) in
  let w' := mkWorld (t0 + seconds 5) None None (t0 + seconds 5)
              (λ c, reverse (map_to_list c)) in
  (world_wf w ∧ world_wf w'
   ∧ counts_nonneg (cache (updateCacheIfNeeded f w).1))
  ∧ Score f w podGold "B" = Score f w' podGold "B".
Proof.
  intros f w w'.
  assert (Hw : world_wf w) by (intros c; reflexivity).
  assert (Hw' : world_wf w') by (intros c; apply reverse_Permutation).
  assert (Hnn : counts_nonneg (cache (updateCacheIfNeeded f w).1))
    by (apply (bool_decide_unpack _); by vm_compute).
  split; [done|].
  exact (Score_order_independent f w w' podGold "B" Hw Hw'
           eq_refl eq_refl eq_refl eq_refl Hnn).
Defined.

(** X17: when the table [Score] reads holds natural counts and some row
    has an entry for the pod's flavour, some node that has a row scores
    100, and its count is the smallest one recorded for the flavour: a
    round of scoring never leaves every recorded node at 0. *)
Theorem Score_some_node_wins (f : FlavourClusterWide) (w : World)
    (pod : Pod) :
  world_wf w →
  podFlavour f pod ≠ ""%string →
  counts_nonneg (cache (updateCacheIfNeeded f w).1) →
  (∃ n0 x, cell (cache (updateCacheIfNeeded f w).1) n0 (podFlavour f pod)
           = Some x) →
  ∃ n, is_Some (cache (updateCacheIfNeeded f w).1 !! n)
       ∧ (Score f w pod n).2 = (100, NewStatus Success "")
       ∧ ∀ n' y, cell (cache (updateCacheIfNeeded f w).1) n'
                   (podFlavour f pod) = Some y →
                 getCount (cache (updateCacheIfNeeded f w).1) n
                   (podFlavour f pod) ≤ y.
Proof.
  intros Hw Hfl Hnn (n0 & x & Hx).
  pose proof (Score_labelled f w pod) as Hscore.
  fold (podFlavour f pod) in Hscore.
  set (c := cache (updateCacheIfNeeded f w).1) in *.
  set (fl := podFlavour f pod) in *.
  destruct (clusterMin c fl) as [m|] eqn:Hm.
  - pose proof Hm as Hm'.
    apply clusterMin_Some in Hm' as [(n & row & Hn & Hrow) Hmin].
    assert (Hcount : getCount c n fl = m).
    { unfold getCount. rewrite Hn. red_default. by rewrite Hrow. }
    exists n. split; [by eexists|]. split.
    + rewrite Hscore by done. cbn [snd].
      rewrite scoreLocked_rule by done.
      rewrite decide_True; [done|]. by rewrite Hcount.
    + intros n' y (row' & Hn' & Hrow')%cell_Some.
      rewrite Hcount. by eapply Hmin.
  - apply cell_Some in Hx as (row & Hn0 & Hrow).
    pose proof (proj1 (clusterMin_None c fl) Hm n0 row Hn0). congruence.
Qed.

Lemma Score_some_node_wins_witness :
  let f := mkPlugin tableABC t0 "flavour" in
  let w := outageWorld (t0 + seconds 5) in
  (world_wf w ∧ podFlavour f podGold ≠ ""%string
   ∧ counts_nonneg (cache (updateCacheIfNeeded f w).1)
   ∧ ∃ n0 x, cell (cache (updateCacheIfNeeded f w).1) n0
               (podFlavour f podGold) = Some x)
  ∧ ∃ n, is_Some (cache (updateCacheIfNeeded f w).1 !! n)
         ∧ (Score f w podGold n).2 = (100, NewStatus Success "").
Proof.
  intros f w.
  assert (Hw : world_wf w) by (intros c; reflexivity).
  assert (Hfl : podFlavour f podGold ≠ ""%string) by (by vm_compute).
  assert (Hnn : counts_nonneg (cache (updateCacheIfNeeded f w).1))
    by (apply (bool_decide_unpack _); by vm_compute).
  assert (Hex : ∃ n0 x, cell (cache (updateCacheIfNeeded f w).1) n0
                          (podFlavour f podGold) = Some x)
    by (exists "B"%string, 5; by vm_compute).
  split; [done|].
  destruct (Score_some_node_wins f w podGold Hw Hfl Hnn Hex)
    as (n & Hrow & Hscore & _).
  by exists n.
Defined.

(** X18: over natural counts a node for which the table records more
    pods of the flavour than it records for some other node scores 0. *)
Theorem Score_beaten_node_scores_zero (f : FlavourClusterWide) (w : World)
    (pod : Pod) (n n0 : string) (x : Z) :
  world_wf w →
  podFlavour f pod ≠ ""%string →
  counts_nonneg (cache (updateCacheIfNeeded f w).1) →
  cell (cache (updateCacheIfNeeded f w).1) n0 (podFlavour f pod) = Some x →
  x < getCount (cache (updateCacheIfNeeded f w).1) n (podFlavour f pod) →
  (Score f w pod n).2 = (0, NewStatus Success "").
Proof.
  intros Hw Hfl Hnn Hx Hlt.
  pose proof (Score_labelled f w pod) as Hscore.
  fold (podFlavour f pod) in Hscore.
  set (c := cache (updateCacheIfNeeded f w).1) in *.
  set (fl := podFlavour f pod) in *.
  rewrite Hscore by done. cbn [snd]. rewrite scoreLocked_rule by done.
  rewrite decide_False; [done|].
  intros [_ Hmin]%clusterMin_Some.
  apply cell_Some in Hx as (row & Hn0 & Hrow).
  specialize (Hmin n0 row x Hn0 Hrow). lia.
Qed.

Lemma Score_beaten_node_scores_zero_witness :
  let f := mkPlugin tableABC t0 "flavour" in
  let w := outageWorld (t0 + seconds 5) in
  (world_wf w ∧ podFlavour f podGold ≠ ""%string
   ∧ counts_nonneg (cache (updateCacheIfNeeded f w).1)
   ∧ cell (cache (updateCacheIfNeeded f w).1) "A" (podFlavour f podGold)
     = Some 2
   ∧ 2 < getCount (cache (updateCacheIfNeeded f w).1) "B"
           (podFlavour f podGold))
  ∧ (Score f w podGold "B").2 = (0, NewStatus Success "").
Proof.
  intros f w.
  assert (Hw : world_wf w) by (intros c; reflexivity).
  assert (Hfl : podFlavour f podGold ≠ ""%string) by (by vm_compute).
  assert (Hnn : counts_nonneg (cache (updateCacheIfNeeded f w).1))
    by (apply (bool_decide_unpack _); by vm_compute).
  assert (Hx : cell (cache (updateCacheIfNeeded f w).1) "A"
                 (podFlavour f podGold) = Some 2) by (by vm_compute).
  assert (Hlt : 2 < getCount (cache (updateCacheIfNeeded f w).1) "B"
                      (podFlavour f podGold)) by (by vm_compute).
  split; [done|].
  exact (Score_beaten_node_scores_zero f w podGold "B" "A" 2
           Hw Hfl Hnn Hx Hlt).
Defined.

(** * The invariant that does hold *)

Lemma reachable_known_uniform_witness :
  let f := PostBind (updateCacheIfNeeded freshPlugin wOneNode).1
             podSilver "A" in
  reachable_known f ∧ uniform (cache f).
Proof.
  intros f.
  assert (Hf : reachable_known f).
  { apply known_PostBind; [|vm_compute; by eexists].
    apply known_update; [by apply (known_New true true ArgsNil)|].
    intros nodes pods [= <-] [= <-] pod Hin _.
    apply list_elem_of_singleton in Hin as ->. apply list_elem_of_here. }
  split; [done|].
  exact (reachable_known_uniform f Hf).
Defined.
